(** * Via stitching and fencing: a shallow embedding of the geometry and
    candidate-filtering engine of [stitching_utils.py],
    [via_stitch_action.py] and [via_fence_action.py].

    Board coordinates are the integer nanometres of kipy's [Vector2], so a
    point is a pair of [Z].  Python float arithmetic on them is taken exact:
    quotients and jitter are rationals ([Q]); Euclidean lengths are the real
    square roots of exact squared norms, and the comparisons the code makes
    on lengths are decided on the squared norms (see [lt_length_spec]).
    Angles (atan2, arc sweep) are real numbers. *)

From Stdlib Require Import ZArith QArith Qround Qreals Qminmax List Bool Lia.
From Stdlib Require Import Reals Lra String Permutation.
Import ListNotations.

Open Scope Z_scope.

(** ** Points and vectors (kipy [Vector2]) *)

Definition point : Type := (Z * Z)%type.

Definition px (p : point) : Z := fst p.
Definition py (p : point) : Z := snd p.

Definition vsub (p q : point) : point := (px p - px q, py p - py q).

(** Squared length of an integer vector. *)
Definition norm2 (v : point) : Z := px v * px v + py v * py v.

(** [Vector2.length()]: the Euclidean length. *)
Definition length (v : point) : R := sqrt (IZR (norm2 v)).

(** ** Ray-casting containment ([is_point_inside_segments]) *)

Definition segment : Type := (point * point)%type.

(** Python's true division [a / b] on two ints: it raises
    [ZeroDivisionError] (here [None]) when [b == 0]. *)
Definition py_truediv (a b : Z) : option Q :=
  if Z.eqb b 0 then None else Some (inject_Z a / inject_Z b)%Q.

(** Strict comparison [a < b] on floats, exact. *)
Definition Qltb (a b : Q) : bool := negb (Qle_bool b a).

(** The loop body of [is_point_inside_segments], run over the segments
    with the running [intersections] counter; [None] is an exception. *)
Fixpoint count_intersections (p : point) (segs : list segment) (n : Z)
  : option Z :=
  match segs with
  | [] => Some n
  | (s, e) :: rest =>
      if Z.eqb (py s) (py e) then count_intersections p rest n
      else if (Z.ltb (Z.min (py s) (py e)) (py p)
               && Z.leb (py p) (Z.max (py s) (py e)))%bool
      then
        match py_truediv ((px e - px s) * (py p - py s)) (py e - py s) with
        | None => None
        | Some q =>
            if Qltb (inject_Z (px p)) (q + inject_Z (px s))
            then count_intersections p rest (n + 1)
            else count_intersections p rest n
        end
      else count_intersections p rest n
  end.

(** [is_point_inside_segments]: [intersections % 2 == 1]. *)
Definition is_point_inside_segments (p : point) (segs : list segment)
  : option bool :=
  match count_intersections p segs 0 with
  | None => None
  | Some n => Some (Z.eqb (Z.modulo n 2) 1)
  end.

(** ** Polylines and polygons with holes (kipy [PolyLine],
    [PolygonWithHoles]) and [get_polygon_segments] *)

(** An arc node of a polyline, with its three defining points. *)
Record arc_node := mkArcNode {
  an_start : point;
  an_mid : point;
  an_end : point
}.

Inductive poly_node :=
| NodePoint (p : point)
| NodeArc (a : arc_node).

Record polyline := mkPolyLine {
  nodes : list poly_node;
  closed : bool
}.

Record polygon_with_holes := mkPWH {
  outline : polyline;
  holes : list polyline
}.

(** Consecutive pairs [(points[i], points[i+1])]. *)
Fixpoint consecutive_pairs (l : list point) : list segment :=
  match l with
  | a :: ((b :: _) as t) => (a, b) :: consecutive_pairs t
  | _ => []
  end.

Section PolygonSegments.

(** The points the loop of [get_polygon_segments] appends for an arc node:
    its start alone when kipy finds no centre or angle, otherwise the
    [num_steps + 1] tessellation points computed with [cos] and [sin].
    The floating-point trigonometry is left abstract. *)
Variable arc_node_points : arc_node -> list point.

Definition node_points (n : poly_node) : list point :=
  match n with
  | NodePoint p => [p]
  | NodeArc a => arc_node_points a
  end.

Definition get_polygon_segments (poly : polyline) : list segment :=
  match nodes poly with
  | [] => []
  | _ =>
      let points := flat_map node_points (nodes poly) in
      match points with
      | first :: _ :: _ =>
          consecutive_pairs points
          ++ (if closed poly then [(last points first, first)] else [])
      | _ => []
      end
  end.

(** The loop over the holes of [is_point_inside_polygon_with_holes]. *)
Fixpoint inside_no_hole (p : point) (hs : list polyline) : option bool :=
  match hs with
  | [] => Some true
  | h :: rest =>
      match is_point_inside_segments p (get_polygon_segments h) with
      | None => None
      | Some true => Some false
      | Some false => inside_no_hole p rest
      end
  end.

Definition is_point_inside_polygon_with_holes (p : point)
  (pwh : polygon_with_holes) : option bool :=
  match is_point_inside_segments p (get_polygon_segments (outline pwh)) with
  | None => None
  | Some false => Some false
  | Some true => inside_no_hole p (holes pwh)
  end.

End PolygonSegments.

(** ** Distance primitives *)

(** Comparison [sqrt d2 < b] of a length with a float bound, decided on the
    squared length (exact arithmetic). *)
Definition lt_sqrt (d2 b : Q) : bool := (Qltb 0 b && Qltb d2 (b * b))%bool.

Definition Qnorm2 (x y : Q) : Q := (x * x + y * y)%Q.

(** Python's [int()] on a float: truncation towards zero. *)
Definition py_int (q : Q) : Z :=
  if Qle_bool 0 q then Qfloor q else - Qfloor (- q).

(** kipy's [Vector2 * scalar]: each coordinate multiplied, then [int()]. *)
Definition vscale (v : point) (t : Q) : point :=
  (py_int (inject_Z (px v) * t), py_int (inject_Z (py v) * t)).

Definition vadd (p q : point) : point := (px p + px q, py p + py q).

(** Squared value of [point_segment_distance(p, a, b)]: the projection
    parameter [t] is clamped to [0, 1], and the projection
    [a + ab * t] is a [Vector2], so [ab * t] is truncated to integers; a
    degenerate segment ([l2 == 0]) gives the distance to [a]. *)
Definition point_segment_distance2 (p a b : point) : Q :=
  let ab := vsub b a in
  let ap := vsub p a in
  let l2 := norm2 ab in
  if Z.eqb l2 0 then inject_Z (norm2 ap)
  else
    let t := Qmax 0 (Qmin 1 (inject_Z (px ap * px ab + py ap * py ab)
                             / inject_Z l2)) in
    let projection := vadd a (vscale ab t) in
    inject_Z (norm2 (vsub p projection)).

Definition point_segment_distance (p a b : point) : R :=
  sqrt (Q2R (point_segment_distance2 p a b)).

(** Python's [math.atan2(y, x)], used by [Vector2.angle()]. *)
Definition atan2 (y x : Z) : R :=
  if Z.ltb 0 x then atan (IZR y / IZR x)
  else if Z.ltb x 0 then
    (if Z.leb 0 y then atan (IZR y / IZR x) + PI
     else atan (IZR y / IZR x) - PI)%R
  else if Z.ltb 0 y then (PI / 2)%R
  else if Z.ltb y 0 then (- (PI / 2))%R
  else 0%R.

Definition angle (v : point) : R := atan2 (py v) (px v).

(** kipy's [normalize_angle_radians]: wraps an angle into [0, 2π). *)
Definition normalize_angle_radians (a : R) : R :=
  (a - 2 * PI * IZR (Int_part (a / (2 * PI))))%R.

(** An arc track: start, mid and end points, width, layer and net. *)
Record arc_track := mkArcTrack {
  at_start : point;
  at_mid : point;
  at_end : point;
  at_width : Z
}.

Section ArcDistance.

(** kipy's [ArcTrack.center()], [radius()] and [angle()] (the signed sweep),
    computed by the library from the three points of the arc. *)
Variable arc_center : arc_track -> option point.
Variable arc_radius : arc_track -> R.
Variable arc_angle : arc_track -> option R.

Definition point_arc_distance (p : point) (arc : arc_track) : R :=
  match arc_center arc with
  | None => point_segment_distance p (at_start arc) (at_end arc)
  | Some center =>
      let radius := arc_radius arc in
      let cp := vsub p center in
      let dist_to_center := length cp in
      let start_angle :=
        normalize_angle_radians (angle (vsub (at_start arc) center)) in
      let p_angle := normalize_angle_radians (angle cp) in
      match arc_angle arc with
      | None => point_segment_distance p (at_start arc) (at_end arc)
      | Some arc_total_angle =>
          let delta_angle := normalize_angle_radians (p_angle - start_angle) in
          if (Rle_dec 0 delta_angle) then
            if Rle_dec delta_angle arc_total_angle
            then Rabs (dist_to_center - radius)
            else Rmin (length (vsub p (at_start arc)))
                      (length (vsub p (at_end arc)))
          else Rmin (length (vsub p (at_start arc)))
                    (length (vsub p (at_end arc)))
      end
  end.

End ArcDistance.

(** ** Board items used as obstacles *)

(** The [layer] attribute of an item as the code reads it: absent, one
    [BoardLayer] value, or a list of layers (a padstack's layers). *)
Inductive layer_attr :=
| LayerNone
| LayerOne (l : Z)
| LayerList (ls : list Z).

Inductive board_item :=
| ItemVia (position : point) (diameter : Z)
(** a pad, with the size of its F_Cu copper layer, else of its B_Cu one *)
| ItemPad (position : point) (copper_size : option point)
| ItemTrack (start end_ : point) (width : Z)
| ItemArc (arc : arc_track).

(** An entry [{'item': ..., 'net': ..., 'type': ...}] of [obstacles]; the net
    is the name of the item's net, [None] when it has none. *)
Record obstacle := mkObstacle {
  ob_item : board_item;
  ob_net : option string;
  ob_layer : layer_attr
}.

(** [target_net and obs['net'] and obs['net'].name == target_net.name] *)
Definition net_exempt (target_net : option string) (o : obstacle) : bool :=
  match target_net, ob_net o with
  | Some t, Some n => String.eqb n t
  | _, _ => false
  end.

Definition Z_inb (l : Z) (ls : list Z) : bool := existsb (Z.eqb l) ls.

(** The layer gate of [perform_stitching]: [true] when the obstacle is
    skipped because it lies on none of the layers of the candidate's zone
    ([via_layers] is [[]] when it is [None] or empty, both falsy). *)
Definition layer_skipped (via_layers : list Z) (o : obstacle) : bool :=
  match via_layers with
  | [] => false
  | _ =>
      match ob_layer o with
      | LayerNone => false
      | LayerOne l => if Z.eqb l 0 then false else negb (Z_inb l via_layers)
      | LayerList [] => false
      | LayerList ls => negb (existsb (fun l => Z_inb l via_layers) ls)
      end
  end.

Definition Qhalf (z : Z) : Q := (inject_Z z / 2)%Q.

Section Obstacles.

Variable arc_center : arc_track -> option point.
Variable arc_radius : arc_track -> R.
Variable arc_angle : arc_track -> option R.

Definition arc_distance := point_arc_distance arc_center arc_radius arc_angle.

(** [obs_clearance] of [perform_stitching]: half the size of the item. *)
Definition obs_clearance (it : board_item) : Q :=
  match it with
  | ItemVia _ d => Qhalf d
  | ItemPad _ (Some sz) => Qhalf (Z.max (px sz) (py sz))
  | ItemPad _ None => 0%Q
  | ItemTrack _ _ w => Qhalf w
  | ItemArc a => Qhalf (at_width a)
  end.

(** [dist] of [perform_stitching]: centre distance for vias and pads,
    point-segment distance for tracks, point-arc distance for arcs. *)
Definition item_distance (pos : point) (it : board_item) : R :=
  match it with
  | ItemVia c _ | ItemPad c _ => length (vsub pos c)
  | ItemTrack a b _ => point_segment_distance pos a b
  | ItemArc a => arc_distance pos a
  end.

(** [dist < bound], decided. *)
Definition item_too_close (pos : point) (it : board_item) (bound : Q) : bool :=
  match it with
  | ItemVia c _ | ItemPad c _ => lt_sqrt (inject_Z (norm2 (vsub pos c))) bound
  | ItemTrack a b _ => lt_sqrt (point_segment_distance2 pos a b) bound
  | ItemArc a => if Rlt_dec (arc_distance pos a) (Q2R bound) then true else false
  end.

(** The obstacle loop of [perform_stitching]: the first obstacle in conflict
    with a via of radius [via_radius] at [pos], if any. *)
Fixpoint stitch_conflict (pos : point) (via_radius clearance : Q)
  (target_net : option string) (via_layers : list Z) (obs : list obstacle)
  : option obstacle :=
  match obs with
  | [] => None
  | o :: rest =>
      if net_exempt target_net o then
        stitch_conflict pos via_radius clearance target_net via_layers rest
      else if layer_skipped via_layers o then
        stitch_conflict pos via_radius clearance target_net via_layers rest
      else if item_too_close pos (ob_item o)
                (via_radius + obs_clearance (ob_item o) + clearance)%Q
      then Some o
      else stitch_conflict pos via_radius clearance target_net via_layers rest
  end.

(** The obstacle loop of [perform_fencing]: only tracks and arcs have a
    distance; any other item keeps [dist = inf]. *)
Fixpoint fence_conflict (pos : point) (via_radius clearance : Q)
  (target_net : option string) (obs : list obstacle) : option obstacle :=
  match obs with
  | [] => None
  | o :: rest =>
      if net_exempt target_net o then
        fence_conflict pos via_radius clearance target_net rest
      else
        match ob_item o with
        | ItemTrack _ _ _ | ItemArc _ =>
            if item_too_close pos (ob_item o)
                 (via_radius + obs_clearance (ob_item o) + clearance)%Q
            then Some o
            else fence_conflict pos via_radius clearance target_net rest
        | _ => fence_conflict pos via_radius clearance target_net rest
        end
  end.

End Obstacles.

(** ** The collision resolver (the candidate loops of [perform_stitching]
    and [perform_fencing]) *)

(** [any((pos - vp).length() < spacing_nm for vp in validated_points)] *)
Definition spacing_conflict (spacing : Z) (pos : point)
  (validated : list point) : bool :=
  existsb (fun vp => lt_sqrt (inject_Z (norm2 (vsub pos vp))) (inject_Z spacing))
    validated.

(** A stitching candidate: its position and the zone it was found in
    (the zone's layers), [None] for the board outline. *)
Record stitch_candidate := mkStitchCandidate {
  cand_pos : point;
  cand_zone_layers : option (list Z)
}.

Section Resolver.

Variable arc_center : arc_track -> option point.
Variable arc_radius : arc_track -> R.
Variable arc_angle : arc_track -> option R.

(** One iteration of [for cand in candidate_positions] in
    [perform_stitching], on the list [validated_points]. *)
Definition stitch_step (debug_mode stitch_layers_only : bool) (spacing : Z)
  (via_radius clearance : Q) (target_net : option string)
  (obstacles : list obstacle) (validated : list point)
  (cand : stitch_candidate) : list point :=
  let pos := cand_pos cand in
  if spacing_conflict spacing pos validated then validated
  else
    let via_layers :=
      match cand_zone_layers cand with
      | Some ls => if stitch_layers_only then ls else []
      | None => []
      end in
    let is_valid :=
      match stitch_conflict arc_center arc_radius arc_angle pos via_radius
              clearance target_net via_layers obstacles with
      | None => true
      | Some _ => false
      end in
    if (negb is_valid && negb debug_mode)%bool then validated
    else validated ++ [pos].

Definition stitch_resolve (debug_mode stitch_layers_only : bool) (spacing : Z)
  (via_radius clearance : Q) (target_net : option string)
  (obstacles : list obstacle) (cands : list stitch_candidate) : list point :=
  fold_left (stitch_step debug_mode stitch_layers_only spacing via_radius
               clearance target_net obstacles) cands [].

(** One iteration of [for pos in candidate_points] in [perform_fencing];
    debug markers never enter [validated_points]. *)
Definition fence_step (spacing : Z) (via_radius clearance : Q)
  (target_net : option string) (obstacles : list obstacle)
  (validated : list point) (pos : point) : list point :=
  if spacing_conflict spacing pos validated then validated
  else
    match fence_conflict arc_center arc_radius arc_angle pos via_radius
            clearance target_net obstacles with
    | None => validated ++ [pos]
    | Some _ => validated
    end.

Definition fence_resolve (spacing : Z) (via_radius clearance : Q)
  (target_net : option string) (obstacles : list obstacle)
  (cands : list point) : list point :=
  fold_left (fence_step spacing via_radius clearance target_net obstacles)
    cands [].

End Resolver.

(** ** Errors, and the state-and-error monad of a placement run *)

(** The exceptions [perform_stitching] and [perform_fencing] raise. *)
Inductive run_error :=
| ENoNetclassSelected     (* "No netclass selected." *)
| ENetclassNotFound       (* "Netclass '...' not found." *)
| EInvalidViaDims         (* "Netclass '...' has invalid via dimensions." *)
| EBadSpacing             (* ValueError "Spacing must be a positive value." *)
| ENoFilledAreas          (* "Selected zones have no filled areas to stitch." *)
| ENoOutline              (* "No valid board outline found." *)
| ENoBBox                 (* "Could not determine board bounding box." *)
| ENoCandidates           (* "No valid positions for vias found ..." *)
| EDiffPairCount          (* ValueError "... requires exactly two tracks ..." *)
| EAttributeError         (* AttributeError: no attribute 'position' *)
| EZeroDivision.          (* ZeroDivisionError *)

Inductive result (A : Type) :=
| Ok (a : A)
| Err (e : run_error).
Arguments Ok {A} a.
Arguments Err {A} e.

(** A run threads the state of Python's global [random] generator, here the
    number of values drawn from it so far. *)
Definition M (A : Type) : Type := nat -> result A * nat.

Definition ret {A} (a : A) : M A := fun s => (Ok a, s).
Definition raise {A} (e : run_error) : M A := fun s => (Err e, s).
Definition bind {A B} (m : M A) (k : A -> M B) : M B :=
  fun s => match m s with
           | (Ok a, s') => k a s'
           | (Err e, s') => (Err e, s')
           end.
Definition lift {A} (o : option A) : M A :=
  match o with Some a => ret a | None => raise EZeroDivision end.

Notation "x <- m ;; k" := (bind m (fun x => k))
  (at level 61, m at next level, right associativity).

Definition check (b : bool) (e : run_error) : M unit :=
  if b then ret tt else raise e.

(** ** Sizing: manual sizes, or the via sizes of a net class *)

Inductive sizing :=
| SizeManual (via_size drill_size : Z)
(** the selected net class name, whether a net of that class exists, and
    the class's via diameter and drill *)
| SizeNetclass (name : string) (found : bool) (via_d drill_d : Z).

Definition resolve_sizing (sz : sizing) : M (Z * Z) :=
  match sz with
  | SizeManual v d => ret (v, d)
  | SizeNetclass name found v d =>
      _ <- check (negb (String.eqb name "")) ENoNetclassSelected ;;
      _ <- check found ENetclassNotFound ;;
      _ <- check (negb (Z.eqb v 0) && negb (Z.eqb d 0))%bool EInvalidViaDims ;;
      ret (v, d)
  end.

(** ** Bounding boxes (kipy [Box2]) and the stitch areas *)

Record box := mkBox {
  box_pos : point;
  box_size : point
}.

(** [Box2.center()]: position plus half the size (integer). *)
Definition box_center (b : box) : point :=
  (px (box_pos b) + Z.quot (px (box_size b)) 2,
   py (box_pos b) + Z.quot (py (box_size b)) 2).

(** [Box2.merge]: the axis-aligned union of two boxes. *)
Definition box_merge (a b : box) : box :=
  let x0 := Z.min (px (box_pos a)) (px (box_pos b)) in
  let y0 := Z.min (py (box_pos a)) (py (box_pos b)) in
  let x1 := Z.max (px (box_pos a) + px (box_size a))
                  (px (box_pos b) + px (box_size b)) in
  let y1 := Z.max (py (box_pos a) + py (box_size a))
                  (py (box_pos b) + py (box_size b)) in
  mkBox (x0, y0) (x1 - x0, y1 - y0).

(** A zone as [perform_stitching] uses it: whether it is filled, its filled
    polygons over all layers, its layers, and the boxes
    [get_enclosing_bbox] collects for it (the bounding boxes of its filled
    polygons, or of its outline when it is not filled). *)
Record zone := mkZone {
  zone_filled : bool;
  zone_polys : list polygon_with_holes;
  zone_layers : list Z;
  zone_bboxes : list box
}.

(** An Edge.Cuts shape: the bounding box [board.get_item_bounding_box]
    reports for it, and, when the shape is a [BoardPolygon], the bounding
    box of its first polygon ([Some None] when it has no polygons; [None]
    when the shape is not a [BoardPolygon]). *)
Record edge_shape := mkEdgeShape {
  es_item_bbox : option box;
  es_polygon : option (option box)
}.

Definition merge_boxes (bs : list box) : option box :=
  match bs with
  | [] => None
  | b :: rest => Some (fold_left box_merge rest b)
  end.

(** The boxes [get_enclosing_bbox] collects for one Edge.Cuts shape: a
    [BoardPolygon] gives [polygons[0].bounding_box()] when it has
    polygons, any other shape [board.get_item_bounding_box(shape)] when
    that is truthy. *)
Definition shape_bboxes (s : edge_shape) : list box :=
  match es_polygon s with
  | Some (Some b) => [b]
  | Some None => []
  | None => match es_item_bbox s with Some b => [b] | None => [] end
  end.

(** [get_enclosing_bbox] over Edge.Cuts shapes, and over selected zones. *)
Definition enclosing_bbox_shapes (shapes : list edge_shape) : option box :=
  match shapes with
  | [] => None
  | _ => merge_boxes (flat_map shape_bboxes shapes)
  end.

Definition enclosing_bbox_zones (zs : list zone) : option box :=
  match zs with
  | [] => None
  | _ => merge_boxes (flat_map zone_bboxes zs)
  end.

(** The closed four-node polygon with the corners of a box. *)
Definition bbox_polygon (b : box) : polygon_with_holes :=
  let x0 := px (box_pos b) in
  let y0 := py (box_pos b) in
  let x1 := x0 + px (box_size b) in
  let y1 := y0 + py (box_size b) in
  mkPWH (mkPolyLine [NodePoint (x0, y0); NodePoint (x1, y0);
                     NodePoint (x1, y1); NodePoint (x0, y1)] true) [].

(** A stitch area: a polygon and the layers of its zone ([None] for the
    board outline). *)
Definition stitch_area : Type := (polygon_with_holes * option (list Z))%type.

(** ** Distance to a polygon's boundary ([point_polygon_distance]) *)

(** [min] of two floats where [None] is [float('inf')]. *)
Definition min_inf (a b : option Q) : option Q :=
  match a, b with
  | None, x | x, None => x
  | Some x, Some y => Some (Qmin x y)
  end.

Definition min_segments_distance2 (p : point) (segs : list segment)
  : option Q :=
  fold_left (fun acc s => min_inf acc (Some (point_segment_distance2 p (fst s) (snd s))))
    segs None.

(** [sqrt d2 >= b]: false exactly when [sqrt d2 < b]; infinity passes. *)
Definition ge_sqrt_inf (d2 : option Q) (b : Q) : bool :=
  match d2 with
  | None => true
  | Some d => negb (lt_sqrt d b)
  end.

(** ** Grid candidates *)

(** [range(lo, hi)] *)
Definition zrange (lo hi : Z) : list Z :=
  map (fun k => lo + Z.of_nat k) (seq 0 (Z.to_nat (hi - lo))).

(** The nested [for i ...: for j ...:] loops, in row-major order. *)
Definition grid_indices (half_rows half_cols : Z) : list (Z * Z) :=
  flat_map (fun i => map (fun j => (i, j)) (zrange (- half_cols) (half_cols + 1)))
    (zrange (- half_rows) (half_rows + 1)).

(** ** The placement runs *)

Record stitch_params := mkStitchParams {
  sp_sizing : sizing;
  sp_spacing : Z;              (* spacing_nm *)
  sp_edge_clearance : Z;       (* edge_clearance_nm *)
  sp_clearance : Z;            (* clearance_nm *)
  sp_row_offset : Z;           (* row_offset_nm *)
  sp_random_variance : bool;
  sp_max_x_variance : Z;
  sp_max_y_variance : Z;
  sp_selection_only : bool;    (* stitch_selection_only *)
  sp_layers_only : bool;       (* stitch_layers_only *)
  sp_selected_zones : list zone;
  sp_outline_shapes : list edge_shape;  (* the shapes on Edge.Cuts *)
  sp_target_net : option string;
  sp_obstacles : list obstacle;         (* pads, vias, tracks, arcs *)
  sp_debug : bool
}.

(** A selected track, arc or segment for fencing: its id and whether it
    lies on a copper layer. None of [Track], [ArcTrack] and
    [BoardSegment] has a [position] attribute. *)
Record sel_item := mkSelItem {
  si_id : Z;
  si_copper : bool
}.

Record fence_params := mkFenceParams {
  fp_sizing : sizing;
  fp_spacing : Z;
  fp_clearance : Z;
  fp_target_net : option string;
  fp_is_diff_pair : bool;
  fp_selected : list sel_item;
  fp_items : list (Z * obstacle)   (* all tracks and arcs, with their ids *)
}.

Definition zone_areas (zs : list zone) : list stitch_area :=
  flat_map (fun z => if zone_filled z
                     then map (fun p => (p, Some (zone_layers z))) (zone_polys z)
                     else []) zs.

Section Runs.

Variable arc_node_points : arc_node -> list point.
Variable arc_center : arc_track -> option point.
Variable arc_radius : arc_track -> R.
Variable arc_angle : arc_track -> option R.
(** [random.random()] at each successive draw of the global generator. *)
Variable random : nat -> Q.
(** [_generate_candidates(item, ..., sides)] with the run's spacing,
    distance, via radius, rows and row offset. *)
Variable generate_candidates : sel_item -> list Z -> list point.

Definition random_uniform (a b : Q) : M Q :=
  fun s => (Ok (a + (b - a) * random s)%Q, S s).

Definition grid_point (center : point) (spacing row_offset : Z)
  (random_variance : bool) (mx my : Z) (ij : Z * Z) : M point :=
  let (i, j) := ij in
  let row_x_offset := if Z.eqb (Z.modulo i 2) 0 then 0 else row_offset in
  let x_pos := inject_Z (px center + j * spacing + row_x_offset) in
  let y_pos := inject_Z (py center + i * spacing) in
  if random_variance then
    dx <- random_uniform (- inject_Z mx) (inject_Z mx) ;;
    dy <- random_uniform (- inject_Z my) (inject_Z my) ;;
    ret (py_int (x_pos + dx), py_int (y_pos + dy))
  else ret (py_int x_pos, py_int y_pos).

(** [for area in stitch_areas: if inside: if far enough: append; break] *)
Fixpoint place_in_area (pos : point) (bound : Q) (areas : list stitch_area)
  : option (option stitch_candidate) :=
  match areas with
  | [] => Some None
  | (poly, zl) :: rest =>
      match is_point_inside_polygon_with_holes arc_node_points pos poly with
      | None => None
      | Some true =>
          let d2 := min_inf
                      (min_segments_distance2 pos
                         (get_polygon_segments arc_node_points (outline poly)))
                      (fold_left (fun acc h => min_inf acc
                                   (min_segments_distance2 pos
                                      (get_polygon_segments arc_node_points h)))
                         (holes poly) None) in
          if ge_sqrt_inf d2 bound then Some (Some (mkStitchCandidate pos zl))
          else place_in_area pos bound rest
      | Some false => place_in_area pos bound rest
      end
  end.

Fixpoint grid_loop (center : point) (spacing row_offset : Z)
  (random_variance : bool) (mx my : Z) (bound : Q) (areas : list stitch_area)
  (idx : list (Z * Z)) (acc : list stitch_candidate)
  : M (list stitch_candidate) :=
  match idx with
  | [] => ret acc
  | ij :: rest =>
      pos <- grid_point center spacing row_offset random_variance mx my ij ;;
      c <- lift (place_in_area pos bound areas) ;;
      grid_loop center spacing row_offset random_variance mx my bound areas rest
        (match c with Some c => acc ++ [c] | None => acc end)
  end.

Definition half_count (size spacing : Z) : Z :=
  if Z.ltb 0 spacing then py_int (inject_Z size / inject_Z (2 * spacing)) else 0.

Definition generate_grid (bbox : box) (spacing row_offset : Z)
  (random_variance : bool) (mx my : Z) (bound : Q) (areas : list stitch_area)
  : M (list stitch_candidate) :=
  let center := box_center bbox in
  let half_cols := half_count (px (box_size bbox)) spacing in
  let half_rows := half_count (py (box_size bbox)) spacing in
  grid_loop center spacing row_offset random_variance mx my bound areas
    (grid_indices half_rows half_cols) [].

(** The polygon [perform_stitching] appends for the board outline.
    [outline_poly.polygons[0].outline] wraps the outline message afresh,
    and its [nodes] property returns a new Python list, so
    [nodes.extend([...])] adds the four corners to a list that is then
    discarded: the outline keeps no node. *)
Definition empty_outline_polygon : polygon_with_holes :=
  mkPWH (mkPolyLine [] true) [].

(** The stitch areas and bounding box of [perform_stitching]. *)
Definition stitch_areas_and_bbox (p : stitch_params)
  : M (list stitch_area * option box) :=
  match sp_selection_only p, sp_selected_zones p with
  | true, (_ :: _) as zs =>
      let areas := zone_areas zs in
      _ <- check (negb (Nat.eqb (List.length areas) 0)) ENoFilledAreas ;;
      ret (areas, enclosing_bbox_zones zs)
  | _, _ =>
      _ <- check (negb (Nat.eqb (List.length (sp_outline_shapes p)) 0)) ENoOutline ;;
      let bb := enclosing_bbox_shapes (sp_outline_shapes p) in
      ret (match bb with
           | Some _ => [(empty_outline_polygon, None)]
           | None => []
           end, bb)
  end.

(** [perform_stitching] up to the candidate list: the via radius and the
    grid candidates kept inside the stitch areas. *)
Definition stitch_candidates (p : stitch_params) : M (Q * list stitch_candidate) :=
  sz <- resolve_sizing (sp_sizing p) ;;
  _ <- check (Z.ltb 0 (sp_spacing p)) EBadSpacing ;;
  let via_radius := Qhalf (fst sz) in
  ab <- stitch_areas_and_bbox p ;;
  match snd ab with
  | None => raise ENoBBox
  | Some bbox =>
      cands <- generate_grid bbox (sp_spacing p) (sp_row_offset p)
                 (sp_random_variance p) (sp_max_x_variance p)
                 (sp_max_y_variance p)
                 (via_radius + inject_Z (sp_edge_clearance p))%Q (fst ab) ;;
      ret (via_radius, cands)
  end.

(** [perform_stitching]: the accepted via positions ([validated_points]). *)
Definition perform_stitching (p : stitch_params) : M (list point) :=
  vc <- stitch_candidates p ;;
  _ <- check (negb (Nat.eqb (List.length (snd vc)) 0)) ENoCandidates ;;
  ret (stitch_resolve arc_center arc_radius arc_angle (sp_debug p)
         (sp_layers_only p) (sp_spacing p) (fst vc)
         (inject_Z (sp_clearance p)) (sp_target_net p) (sp_obstacles p) (snd vc)).

(** The candidates of [perform_fencing]. *)
Definition fence_candidates (p : fence_params) : M (list point) :=
  if fp_is_diff_pair p then
    match fp_selected p with
    | [item1; item2] =>
        let points1 := generate_candidates item1 [-1; 1] in
        let points2 := generate_candidates item2 [-1; 1] in
        let midpoints :=
          if Nat.eqb (List.length points1) (List.length points2)
          then combine points1 points2 else [] in
        (* For every [p] the first comparison against a midpoint reads
           [item1.position]; a selected item has no such attribute. With no
           midpoint the inner loop is empty and every point is kept. *)
        match points1 ++ points2, midpoints with
        | _ :: _, _ :: _ => raise EAttributeError
        | cands, _ => ret cands
        end
    | _ => raise EDiffPairCount
    end
  else
    ret (flat_map (fun item => generate_candidates item
                                 (if si_copper item then [-1; 1] else [1]))
           (fp_selected p)).

(** [perform_fencing]: the accepted via positions ([validated_points]). *)
Definition perform_fencing (p : fence_params) : M (list point) :=
  sz <- resolve_sizing (fp_sizing p) ;;
  _ <- check (Z.ltb 0 (fp_spacing p)) EBadSpacing ;;
  let via_radius := Qhalf (fst sz) in
  let selected_ids := map si_id (fp_selected p) in
  let obstacles := map snd (filter (fun io => negb (Z_inb (fst io) selected_ids))
                              (fp_items p)) in
  cands <- fence_candidates p ;;
  ret (fence_resolve arc_center arc_radius arc_angle (fp_spacing p) via_radius
         (inject_Z (fp_clearance p)) (fp_target_net p) obstacles cands).

End Runs.

(** ** Specification-side notions *)

(** The crossing rule of the ray cast: a non-horizontal segment, a half-open
    band [min(y) < p.y <= max(y)], and the crossing strictly right of [p]. *)
Definition crosses (p : point) (s : segment) : bool :=
  let (a, b) := s in
  (negb (Z.eqb (py a) (py b))
   && (Z.ltb (Z.min (py a) (py b)) (py p) && Z.leb (py p) (Z.max (py a) (py b)))
   && Qltb (inject_Z (px p))
        (inject_Z ((px b - px a) * (py p - py a)) / inject_Z (py b - py a)
         + inject_Z (px a)))%bool.

(** Odd number of crossings. *)
Definition ray_parity_inside (p : point) (segs : list segment) : bool :=
  Nat.odd (List.length (filter (crosses p) segs)).

(** [i < j] positions of a list hold points at least [spacing] apart. *)
Definition spaced (spacing : Z) (l : list point) : Prop :=
  forall i j a b, (i < j)%nat -> nth_error l i = Some a -> nth_error l j = Some b ->
    (IZR spacing <= length (vsub b a))%R.

(** [l] is a subsequence of [m] (order kept). *)
Inductive subseq {A : Type} : list A -> list A -> Prop :=
| subseq_nil : subseq [] []
| subseq_take x l m : subseq l m -> subseq (x :: l) (x :: m)
| subseq_skip x l m : subseq l m -> subseq l (x :: m).

(** An obstacle the stitching scan must report: not net-exempt, not skipped
    by the layer gate, and closer than the clearance budget. *)
Definition stitch_violation ac ar aa (pos : point) (via_radius clearance : Q)
  (target_net : option string) (via_layers : list Z) (o : obstacle) : Prop :=
  net_exempt target_net o = false /\ layer_skipped via_layers o = false /\
  (item_distance ac ar aa pos (ob_item o)
   < Q2R (via_radius + obs_clearance (ob_item o) + clearance))%R.

Definition is_trace (it : board_item) : bool :=
  match it with
  | ItemTrack _ _ _ | ItemArc _ => true
  | _ => false
  end.

(** An obstacle the fencing scan must report. *)
Definition fence_violation ac ar aa (pos : point) (via_radius clearance : Q)
  (target_net : option string) (o : obstacle) : Prop :=
  net_exempt target_net o = false /\ is_trace (ob_item o) = true /\
  (item_distance ac ar aa pos (ob_item o)
   < Q2R (via_radius + obs_clearance (ob_item o) + clearance))%R.

(** A track on layer 34 (B.Cu) with no net, crossing the point (500, 0). *)
Definition bcu_track : obstacle :=
  mkObstacle (ItemTrack (0, 0) (1000, 0) 200) None (LayerOne 34).

(** A half-circle arc of radius 1 mm (1000000 nm) around (5 mm, 5 mm),
    from (6 mm, 5 mm) through (5 mm, 4 mm) to (4 mm, 5 mm): it turns
    clockwise in the frame of [atan2] (x to the right, y up), i.e. through
    decreasing angles 0, -π/2, -π. *)
Definition cw_arc : arc_track :=
  mkArcTrack (6000000, 5000000) (5000000, 4000000) (4000000, 5000000) 0.


(** ** Errors a run can raise *)





(** A filled zone on layer 0 whose one filled polygon is the square
    [0, 100] x [0, 100]. *)
Definition square_zone : zone :=
  mkZone true [bbox_polygon (mkBox (0, 0) (100, 100))] [0]
    [mkBox (0, 0) (100, 100)].


(** Stitching of the selected [square_zone] with spacing 1000 and via 2:
    one grid point, the centre (50, 50), jittered by up to 10 in x and y. *)
Definition jitter_params : stitch_params :=
  mkStitchParams (SizeManual 2 1) 1000 0 0 0 true 10 10 true false
    [square_zone] [] None [] false.

(** A [random.random()] stream: 0 first, then 0.5. *)
Definition jitter_stream (n : nat) : Q := if Nat.eqb n 0 then 0%Q else (1 # 2)%Q.

(** A segment with its end points exchanged. *)
Definition swap_segment (s : segment) : segment := (snd s, fst s).

(** The four sides of the square [0,4] x [0,4], as segments. *)
Definition square_segments : list segment :=
  [((0, 0), (4, 0)); ((4, 0), (4, 4)); ((4, 4), (0, 4)); ((0, 4), (0, 0))].

(** ** The boundary distance of [stitching_utils.point_polygon_distance] *)

(** Python's [min(a, b)] on two floats where [None] is [float('inf')]. *)
Definition Rmin_inf (a b : option R) : option R :=
  match a, b with
  | None, x | x, None => x
  | Some x, Some y => Some (Rmin x y)
  end.

(** [min((point_segment_distance(p, s, e) for s, e in segs), default=float('inf'))] *)
Definition min_segment_distance (p : point) (segs : list segment) : option R :=
  fold_left (fun acc s => Rmin_inf acc (Some (point_segment_distance p (fst s) (snd s))))
    segs None.

Section PolygonDistance.

Variable arc_node_points : arc_node -> list point.

(** [point_polygon_distance]: the outline's minimum, then one [min] per
    hole; [None] is [float('inf')]. *)
Definition point_polygon_distance (p : point) (poly : polygon_with_holes)
  : option R :=
  fold_left (fun min_dist h =>
               Rmin_inf min_dist
                 (min_segment_distance p (get_polygon_segments arc_node_points h)))
    (holes poly)
    (min_segment_distance p (get_polygon_segments arc_node_points (outline poly))).

(** The two tests [place_in_area] makes on an area, as the source states
    them: [is_point_inside_polygon_with_holes(pos, poly)] and
    [point_polygon_distance(pos, poly) >= bound]. *)
Definition area_accepts (pos : point) (bound : Q) (area : stitch_area) : Prop :=
  is_point_inside_polygon_with_holes arc_node_points pos (fst area) = Some true /\
  match point_polygon_distance pos (fst area) with
  | None => True
  | Some d => (Q2R bound <= d)%R
  end.

End PolygonDistance.

(** ** The items the runs create ([items_to_create]) *)

(** A created [Via] at a position, or a debug [BoardText] marker at a
    position, whose text names the obstacle in conflict. *)
Inductive created_item :=
| CreatedVia (pos : point)
| CreatedText (pos : point) (reason : obstacle).

Definition is_created_via (i : created_item) : bool :=
  match i with CreatedVia _ => true | CreatedText _ _ => false end.

(** [vias_created_count = len([i for i in items_to_create if isinstance(i, Via)])] *)
Definition vias_created_count (items : list created_item) : nat :=
  List.length (filter is_created_via items).

(** The value [perform_stitching] and [perform_fencing] return:
    [0] when [items_to_create] is empty, else [vias_created_count]. *)
Definition returned_count (items : list created_item) : nat :=
  match items with
  | [] => 0%nat
  | _ => vias_created_count items
  end.

Section Items.

Variable arc_center : arc_track -> option point.
Variable arc_radius : arc_track -> R.
Variable arc_angle : arc_track -> option R.

(** One iteration of the candidate loop of [perform_stitching] on
    [(validated_points, items_to_create)]. *)
Definition stitch_items_step (debug_mode stitch_layers_only : bool) (spacing : Z)
  (via_radius clearance : Q) (target_net : option string)
  (obstacles : list obstacle) (st : list point * list created_item)
  (cand : stitch_candidate) : list point * list created_item :=
  let (validated, items) := st in
  let pos := cand_pos cand in
  if spacing_conflict spacing pos validated then st
  else
    let via_layers :=
      match cand_zone_layers cand with
      | Some ls => if stitch_layers_only then ls else []
      | None => []
      end in
    match stitch_conflict arc_center arc_radius arc_angle pos via_radius
            clearance target_net via_layers obstacles with
    | None => (validated ++ [pos], items ++ [CreatedVia pos])
    | Some o =>
        if debug_mode
        then (validated ++ [pos], items ++ [CreatedVia pos; CreatedText pos o])
        else st
    end.

Definition stitch_items (debug_mode stitch_layers_only : bool) (spacing : Z)
  (via_radius clearance : Q) (target_net : option string)
  (obstacles : list obstacle) (cands : list stitch_candidate)
  : list point * list created_item :=
  fold_left (stitch_items_step debug_mode stitch_layers_only spacing via_radius
               clearance target_net obstacles) cands ([], []).

(** One iteration of the candidate loop of [perform_fencing]: a debug
    marker gets a via and a text but does not enter [validated_points]. *)
Definition fence_items_step (debug_mode : bool) (spacing : Z)
  (via_radius clearance : Q) (target_net : option string)
  (obstacles : list obstacle) (st : list point * list created_item)
  (pos : point) : list point * list created_item :=
  let (validated, items) := st in
  if spacing_conflict spacing pos validated then st
  else
    match fence_conflict arc_center arc_radius arc_angle pos via_radius
            clearance target_net obstacles with
    | None => (validated ++ [pos], items ++ [CreatedVia pos])
    | Some o =>
        if debug_mode
        then (validated, items ++ [CreatedVia pos; CreatedText pos o])
        else st
    end.

Definition fence_items (debug_mode : bool) (spacing : Z)
  (via_radius clearance : Q) (target_net : option string)
  (obstacles : list obstacle) (cands : list point)
  : list point * list created_item :=
  fold_left (fence_items_step debug_mode spacing via_radius clearance target_net
               obstacles) cands ([], []).

End Items.

(** ** The [via-stitch.py] variants of the helpers *)

(** [a] lies within [b] (both as [pos] and [pos + size] corners). *)
Definition box_within (a b : box) : Prop :=
  px (box_pos b) <= px (box_pos a) /\ py (box_pos b) <= py (box_pos a) /\
  px (box_pos a) + px (box_size a) <= px (box_pos b) + px (box_size b) /\
  py (box_pos a) + py (box_size a) <= py (box_pos b) + py (box_size b).

(** [get_enclosing_bbox] of [via-stitch.py]: the minimum and maximum
    corners over the boxes the board reports for the shapes. *)
Definition vs_get_enclosing_bbox (shapes : list edge_shape) : option box :=
  match shapes with
  | [] => None
  | _ =>
      let bboxes := flat_map (fun s => match es_item_bbox s with
                                       | Some b => [b]
                                       | None => []
                                       end) shapes in
      match bboxes with
      | [] => None
      | b :: rest =>
          let min_x := fold_left Z.min (map (fun b => px (box_pos b)) rest)
                         (px (box_pos b)) in
          let min_y := fold_left Z.min (map (fun b => py (box_pos b)) rest)
                         (py (box_pos b)) in
          let max_x := fold_left Z.max
                         (map (fun b => px (box_pos b) + px (box_size b)) rest)
                         (px (box_pos b) + px (box_size b)) in
          let max_y := fold_left Z.max
                         (map (fun b => py (box_pos b) + py (box_size b)) rest)
                         (py (box_pos b) + py (box_size b)) in
          Some (mkBox (min_x, min_y) (max_x - min_x, max_y - min_y))
      end
  end.

(** [is_point_inside_outline] of [via-stitch.py]: the loop of
    [is_point_inside_segments], line for line. *)
Definition is_point_inside_outline (p : point) (segs : list segment) : option bool :=
  is_point_inside_segments p segs.

(** [for i in range(len(points)): (points[i], points[(i + 1) % len(points)])] *)
Definition ring_segments (points : list point) : list segment :=
  map (fun i => (nth i points (0, 0),
                 nth (Nat.modulo (i + 1) (List.length points)) points (0, 0)))
    (seq 0 (List.length points)).

(** [[node.point for node in outline if node.has_point]] *)
Definition point_nodes (ns : list poly_node) : list point :=
  flat_map (fun n => match n with NodePoint p => [p] | NodeArc _ => [] end) ns.

(** The [BoardPolygon] branch of [get_outline_segments] (and the segment
    list of [point_polygon_distance]) over [shape.polygons]. *)
Definition vs_polygon_segments (polygons : list polygon_with_holes) : list segment :=
  match polygons with
  | pwh :: _ =>
      match nodes (outline pwh) with
      | [] => []
      | ns =>
          let points := point_nodes ns in
          if Nat.leb 2 (List.length points) then ring_segments points else []
      end
  | [] => []
  end.

(** The four sides of a [BoardRectangle]'s bounding box. *)
Definition rect_segments (b : box) : list segment :=
  let p1 := box_pos b in
  let p3 := (px (box_pos b) + px (box_size b), py (box_pos b) + py (box_size b)) in
  let p2 := (px p3, py p1) in
  let p4 := (px p1, py p3) in
  [(p1, p2); (p2, p3); (p3, p4); (p4, p1)].

(** An Edge.Cuts shape as [get_outline_segments] of [via-stitch.py] tells
    them apart; rectangles and circles through their bounding box. *)
Inductive vs_shape :=
| VSPolygon (polygons : list polygon_with_holes)
| VSRectangle (bbox : option box)
| VSSegment (start end_ : point)
| VSCircle (bbox : option box)
| VSOtherShape.

Section VSOutline.

(** The [i]-th of the 64 points of a circle with the given bounding box:
    [int(center.x + radius * cos(2*pi*i/64))] and likewise for [y]. *)
Variable circle_point : box -> nat -> point.

Definition vs_shape_segments (sh : vs_shape) : list segment :=
  match sh with
  | VSPolygon polygons => vs_polygon_segments polygons
  | VSRectangle (Some b) => rect_segments b
  | VSSegment s e => [(s, e)]
  | VSCircle (Some b) => ring_segments (map (circle_point b) (seq 0 64))
  | _ => []
  end.

Definition vs_get_outline_segments (shapes : list vs_shape) : list segment :=
  flat_map vs_shape_segments shapes.

End VSOutline.

(** [point_polygon_distance] of [via-stitch.py]: [Some None] is
    [float('inf')], [None] an exception ([min] of an empty sequence). *)
Definition vs_point_polygon_distance (p : point) (polygons : list polygon_with_holes)
  : option (option R) :=
  let segments := vs_polygon_segments polygons in
  match segments with
  | [] => Some None
  | _ =>
      match is_point_inside_outline p segments with
      | None => None
      | Some true => Some (Some 0%R)
      | Some false =>
          match min_segment_distance p segments with
          | None => None
          | Some d => Some (Some d)
          end
      end
  end.

(** The candidate filter of [perform_stitching] in [via-stitch.py]:
    [if not is_point_inside_outline(pos, outline_segments): continue] then
    [if min(point_segment_distance(...)) < bound: continue]. [Some true]
    keeps the candidate; [None] is an exception. *)
Definition vs_candidate_ok (outline_segments : list segment) (pos : point) (bound : Q)
  : option bool :=
  match is_point_inside_outline pos outline_segments with
  | None => None
  | Some false => Some false
  | Some true =>
      match min_segment_distance pos outline_segments with
      | None => None
      | Some d => Some (if Rlt_dec d (Q2R bound) then false else true)
      end
  end.

(** ** Minima of finite families (for the distance folds) *)

(** The pairwise minimum of two optional values, [None] acting as
    [float('inf')]. *)
Definition omin (T : Type) (mn : T -> T -> T) (a b : option T) : option T :=
  match a, b with
  | None, x | x, None => x
  | Some x, Some y => Some (mn x y)
  end.

(** [r] is the minimum of [l] for the order [le], [None] when [l] is empty. *)
Definition is_min_of (T : Type) (le : T -> T -> Prop) (r : option T) (l : list T) : Prop :=
  (r = None <-> l = []) /\ forall d, r = Some d -> In d l /\ Forall (le d) l.

(** The length and the squared length of the distance from [p] to a segment. *)
Definition seg_dist (p : point) (s : segment) : R := point_segment_distance p (fst s) (snd s).
Definition seg_dist2 (p : point) (s : segment) : Q := point_segment_distance2 p (fst s) (snd s).

(** All the segments of a polygon with holes: outline, then each hole. *)
Definition boundary_segments anp (poly : polygon_with_holes) : list segment :=
  get_polygon_segments anp (outline poly) ++ flat_map (get_polygon_segments anp) (holes poly).

(** The number of debug markers among the created items. *)
Definition text_count (items : list created_item) : nat :=
  List.length (filter (fun i => negb (is_created_via i)) items).

(** The per-obstacle tests of the two scans. *)
Definition stitch_test ac ar aa (pos : point) (via_radius clearance : Q)
  (target_net : option string) (via_layers : list Z) (o : obstacle) : bool :=
  (negb (net_exempt target_net o) && negb (layer_skipped via_layers o)
   && item_too_close ac ar aa pos (ob_item o)
        (via_radius + obs_clearance (ob_item o) + clearance))%bool.
Definition fence_test ac ar aa (pos : point) (via_radius clearance : Q)
  (target_net : option string) (o : obstacle) : bool :=
  (negb (net_exempt target_net o)
   && match ob_item o with
      | ItemTrack _ _ _ | ItemArc _ =>
          item_too_close ac ar aa pos (ob_item o)
            (via_radius + obs_clearance (ob_item o) + clearance)
      | _ => false
      end)%bool.
(** * Theorems *)

(** ** Exact comparisons *)

Lemma Qltb_spec (a b : Q) : Qltb a b = true <-> (a < b)%Q.
Proof.
  unfold Qltb. rewrite negb_true_iff. split; intro H.
  - apply Qnot_le_lt. intro H'. apply Qle_bool_iff in H'. congruence.
  - destruct (Qle_bool b a) eqn:E; [|reflexivity].
    apply Qle_bool_iff in E. exfalso. apply (Qlt_not_le a b); assumption.
Qed.

Lemma Q2R_0 : Q2R 0 = 0%R.
Proof. unfold Q2R. simpl. apply Rmult_0_l. Qed.

Lemma Q2R_inject_Z (z : Z) : Q2R (inject_Z z) = IZR z.
Proof. unfold Q2R, inject_Z. simpl. rewrite Rinv_1. apply Rmult_1_r. Qed.

(** The decided comparison [lt_sqrt] is the real one on [sqrt]. *)
Lemma lt_sqrt_spec (d b : Q) :
  (0 <= d)%Q -> lt_sqrt d b = true <-> (sqrt (Q2R d) < Q2R b)%R.
Proof.
  intro Hd. unfold lt_sqrt. rewrite andb_true_iff, !Qltb_spec.
  pose proof (Qle_Rle _ _ Hd) as Hd'. rewrite Q2R_0 in Hd'.
  split.
  - intros [Hb Hdb].
    apply Qlt_Rlt in Hb. apply Qlt_Rlt in Hdb.
    rewrite Q2R_0 in Hb. rewrite Q2R_mult in Hdb.
    rewrite <- (sqrt_square (Q2R b)) by lra.
    apply sqrt_lt_1; nra.
  - intro H. pose proof (sqrt_pos (Q2R d)) as Hs.
    pose proof (sqrt_sqrt (Q2R d) Hd') as Hss.
    split.
    + apply Rlt_Qlt. rewrite Q2R_0. lra.
    + apply Rlt_Qlt. rewrite Q2R_mult. nra.
Qed.

Lemma norm2_nonneg (v : point) : 0 <= norm2 v.
Proof. unfold norm2. nia. Qed.

Lemma lt_sqrt_Z (n s : Z) :
  0 <= n -> lt_sqrt (inject_Z n) (inject_Z s) = true <-> (sqrt (IZR n) < IZR s)%R.
Proof.
  intro Hn. rewrite lt_sqrt_spec, !Q2R_inject_Z; [reflexivity|].
  unfold Qle. simpl. lia.
Qed.

(** ** Ray casting *)

Lemma count_intersections_crosses (p : point) (segs : list segment) (n : Z) :
  count_intersections p segs n
  = Some (n + Z.of_nat (List.length (filter (crosses p) segs))).
Proof.
  revert n. induction segs as [|[s e] rest IH]; intro n; simpl.
  - f_equal. lia.
  - destruct (Z.eqb (py s) (py e)) eqn:Ehor; simpl.
    + rewrite IH. reflexivity.
    + destruct (Z.ltb (Z.min (py s) (py e)) (py p)
                && Z.leb (py p) (Z.max (py s) (py e)))%bool eqn:Eband; simpl.
      * unfold py_truediv.
        assert (Hden : Z.eqb (py e - py s) 0 = false)
          by (apply Z.eqb_neq; apply Z.eqb_neq in Ehor; lia).
        rewrite Hden.
        destruct (Qltb (inject_Z (px p))
                    (inject_Z ((px e - px s) * (py p - py s)) / inject_Z (py e - py s)
                     + inject_Z (px s))); simpl; rewrite IH; f_equal; lia.
      * rewrite IH. reflexivity.
Qed.

Lemma odd_of_nat (k : nat) : Z.odd (Z.of_nat k) = Nat.odd k.
Proof.
  induction k as [|k IH]; [reflexivity|].
  rewrite Nat2Z.inj_succ, Z.odd_succ, Nat.odd_succ, <- Z.negb_odd,
    <- Nat.negb_odd, IH.
  reflexivity.
Qed.

Lemma odd_mod2 (k : nat) : Z.eqb (Z.modulo (Z.of_nat k) 2) 1 = Nat.odd k.
Proof.
  rewrite Zmod_odd, odd_of_nat. destruct (Nat.odd k); reflexivity.
Qed.

(** C10: the ray cast is total: the division by [end.y - start.y] is only
    reached for non-horizontal segments, so no [ZeroDivisionError] is ever
    raised and a Boolean is returned for every point and segment list
    (zero-length and horizontal segments included). *)
Theorem is_point_inside_segments_total (p : point) (segs : list segment) :
  exists b, is_point_inside_segments p segs = Some b.
Proof.
  unfold is_point_inside_segments. rewrite count_intersections_crosses.
  eexists. reflexivity.
Qed.

(** C3: containment is the parity of the crossings, where horizontal
    segments never cross and a segment crosses only when
    [min(y) < p.y <= max(y)]; a point is inside a polygon with holes iff it
    is inside its outline and inside none of its holes. *)
Theorem ray_casting_containment :
  (forall p segs,
      is_point_inside_segments p segs = Some (ray_parity_inside p segs)) /\
  (forall p a b, py a = py b -> crosses p (a, b) = false) /\
  (forall p a b, crosses p (a, b) = true ->
      Z.min (py a) (py b) < py p <= Z.max (py a) (py b)) /\
  (forall arc_node_points p pwh,
      is_point_inside_polygon_with_holes arc_node_points p pwh
      = Some (ray_parity_inside p (get_polygon_segments arc_node_points (outline pwh))
              && forallb (fun h => negb (ray_parity_inside p
                                       (get_polygon_segments arc_node_points h)))
                   (holes pwh))%bool).
Proof.
  assert (Hin : forall p segs,
             is_point_inside_segments p segs = Some (ray_parity_inside p segs)).
  { intros p segs. unfold is_point_inside_segments, ray_parity_inside.
    rewrite count_intersections_crosses. simpl. rewrite odd_mod2. reflexivity. }
  split; [exact Hin|]. split; [|split].
  - intros p a b H. unfold crosses. rewrite H, Z.eqb_refl. reflexivity.
  - intros p a b H. unfold crosses in H.
    apply andb_true_iff in H as [H _]. apply andb_true_iff in H as [_ H].
    apply andb_true_iff in H as [H1 H2].
    apply Z.ltb_lt in H1. apply Z.leb_le in H2. lia.
  - intros f p pwh. unfold is_point_inside_polygon_with_holes.
    rewrite Hin. destruct (ray_parity_inside p _); simpl; [|reflexivity].
    induction (holes pwh) as [|h hs IH]; simpl; [reflexivity|].
    rewrite Hin. destruct (ray_parity_inside p _); simpl; [reflexivity|exact IH].
Qed.

(** ** The collision resolver *)

Lemma spacing_conflict_spec (spacing : Z) (pos : point) (v : list point) :
  spacing_conflict spacing pos v = true <->
  exists vp, In vp v /\ (length (vsub pos vp) < IZR spacing)%R.
Proof.
  unfold spacing_conflict. rewrite existsb_exists.
  split; intros [vp [Hin H]]; exists vp; split; try exact Hin;
    unfold length in *; apply lt_sqrt_Z in H || apply lt_sqrt_Z;
    auto using norm2_nonneg.
Qed.

Lemma spacing_ok_far (spacing : Z) (pos : point) (v : list point) :
  spacing_conflict spacing pos v = false ->
  forall a, In a v -> (IZR spacing <= length (vsub pos a))%R.
Proof.
  intros H a Ha. apply Rnot_lt_le. intro Hlt.
  assert (spacing_conflict spacing pos v = true) as H'
    by (apply spacing_conflict_spec; eauto).
  congruence.
Qed.

Lemma spaced_nil (spacing : Z) : spaced spacing [].
Proof. intros i j a b _ Hi. destruct i; discriminate. Qed.

Lemma spaced_snoc (spacing : Z) (l : list point) (b : point) :
  spaced spacing l ->
  (forall a, In a l -> (IZR spacing <= length (vsub b a))%R) ->
  spaced spacing (l ++ [b]).
Proof.
  intros Hl Hb i j a c Hij Hi Hj.
  destruct (Nat.lt_ge_cases j (List.length l)) as [Hjl|Hjl].
  - rewrite nth_error_app1 in Hj by exact Hjl.
    rewrite nth_error_app1 in Hi by lia.
    exact (Hl i j a c Hij Hi Hj).
  - rewrite nth_error_app2 in Hj by exact Hjl.
    destruct (j - List.length l)%nat as [|k] eqn:Ek; simpl in Hj;
      [|destruct k; discriminate].
    injection Hj as <-.
    rewrite nth_error_app1 in Hi by lia.
    apply Hb. eapply nth_error_In. exact Hi.
Qed.

(** A one-step resolver either keeps [v] or appends [pos] to it, and it
    appends only positions far enough from every point of [v]. *)
Lemma resolve_fold_invariant (A : Type) (step : list point -> A -> list point)
  (posof : A -> point) (spacing : Z) :
  (forall v c, step v c = v \/
               (step v c = v ++ [posof c] /\
                spacing_conflict spacing (posof c) v = false)) ->
  forall cands v, spaced spacing v ->
    exists w, fold_left step cands v = v ++ w /\ subseq w (map posof cands) /\
              spaced spacing (v ++ w).
Proof.
  intros Hstep cands. induction cands as [|c rest IH]; intros v Hv; simpl.
  - exists []. rewrite app_nil_r. repeat split; [constructor|exact Hv].
  - destruct (Hstep v c) as [E|[E Hfar]]; rewrite E.
    + destruct (IH v Hv) as [w [Hw [Hs Hsp]]].
      exists w. repeat split; auto. constructor. exact Hs.
    + assert (Hv' : spaced spacing (v ++ [posof c]))
        by (apply spaced_snoc; [exact Hv|]; apply spacing_ok_far; exact Hfar).
      destruct (IH _ Hv') as [w [Hw [Hs Hsp]]].
      exists (posof c :: w). rewrite <- app_assoc in Hw, Hsp.
      repeat split; auto. constructor. exact Hs.
Qed.

(** C1: candidates are processed in generator order (the accepted list is a
    subsequence of the candidates); the self-spacing test rejects a
    candidate exactly when some already accepted point is at distance
    strictly less than [spacing], and otherwise the obstacle test decides;
    every two accepted points are at distance at least [spacing]. This holds
    for stitching (with or without debug mode) and for fencing. *)
Theorem resolver_self_spacing :
  (forall spacing pos v,
      spacing_conflict spacing pos v = true <->
      exists vp, In vp v /\ (length (vsub pos vp) < IZR spacing)%R) /\
  (forall ac ar aa debug lo spacing r c t obs v cand,
      spacing_conflict spacing (cand_pos cand) v = false ->
      stitch_step ac ar aa debug lo spacing r c t obs v cand =
      let via_layers := match cand_zone_layers cand with
                        | Some ls => if lo then ls else []
                        | None => []
                        end in
      match stitch_conflict ac ar aa (cand_pos cand) r c t via_layers obs with
      | None => v ++ [cand_pos cand]
      | Some _ => if debug then v ++ [cand_pos cand] else v
      end) /\
  (forall ac ar aa debug lo spacing r c t obs v cand,
      spacing_conflict spacing (cand_pos cand) v = true ->
      stitch_step ac ar aa debug lo spacing r c t obs v cand = v) /\
  (forall ac ar aa spacing r c t obs v pos,
      fence_step ac ar aa spacing r c t obs v pos =
      if spacing_conflict spacing pos v then v
      else match fence_conflict ac ar aa pos r c t obs with
           | None => v ++ [pos]
           | Some _ => v
           end) /\
  (forall ac ar aa debug lo spacing r c t obs cands,
      let acc := stitch_resolve ac ar aa debug lo spacing r c t obs cands in
      subseq acc (map cand_pos cands) /\ spaced spacing acc) /\
  (forall ac ar aa spacing r c t obs cands,
      let acc := fence_resolve ac ar aa spacing r c t obs cands in
      subseq acc cands /\ spaced spacing acc).
Proof.
  split; [exact spacing_conflict_spec|].
  split; [intros * H; unfold stitch_step; rewrite H; simpl;
          destruct (stitch_conflict _ _ _ _ _ _ _ _ _); [|reflexivity];
          destruct debug; reflexivity|].
  split; [intros * H; unfold stitch_step; rewrite H; reflexivity|].
  split; [intros; reflexivity|].
  split.
  - intros. unfold acc, stitch_resolve.
    destruct (resolve_fold_invariant _
                (stitch_step ac ar aa debug lo spacing r c t obs) cand_pos spacing)
      with (cands := cands) (v := @nil point) as [w [Hw [Hs Hsp]]].
    + intros v cand. unfold stitch_step.
      destruct (spacing_conflict spacing (cand_pos cand) v) eqn:E; [now left|].
      destruct (_ && _)%bool; [now left|now right].
    + apply spaced_nil.
    + rewrite Hw. simpl. split; assumption.
  - intros. unfold acc, fence_resolve.
    destruct (resolve_fold_invariant _
                (fence_step ac ar aa spacing r c t obs) (fun p => p) spacing)
      with (cands := cands) (v := @nil point) as [w [Hw [Hs Hsp]]].
    + intros v pos. unfold fence_step.
      destruct (spacing_conflict spacing pos v) eqn:E; [now left|].
      destruct (fence_conflict _ _ _ _ _ _ _ _); [now left|now right].
    + apply spaced_nil.
    + rewrite Hw, map_id in *. simpl. split; assumption.
Qed.

(** ** The obstacle clearance test *)

Lemma Qnorm2_nonneg (x y : Q) : (0 <= Qnorm2 x y)%Q.
Proof.
  apply Rle_Qle. unfold Qnorm2. rewrite Q2R_plus, !Q2R_mult, Q2R_0. nra.
Qed.

Lemma inject_norm2_nonneg (v : point) : (0 <= inject_Z (norm2 v))%Q.
Proof. pose proof (norm2_nonneg v). unfold Qle. simpl. lia. Qed.

Lemma point_segment_distance2_nonneg (p a b : point) :
  (0 <= point_segment_distance2 p a b)%Q.
Proof.
  unfold point_segment_distance2.
  destruct (Z.eqb _ 0); apply inject_norm2_nonneg.
Qed.

(** The decided test [dist < bound] is the real comparison. *)
Lemma item_too_close_spec ac ar aa (pos : point) (it : board_item) (bound : Q) :
  item_too_close ac ar aa pos it bound = true <->
  (item_distance ac ar aa pos it < Q2R bound)%R.
Proof.
  destruct it as [c d|c sz|a b w|arc]; simpl.
  - unfold length. rewrite lt_sqrt_spec, Q2R_inject_Z
      by apply inject_norm2_nonneg. reflexivity.
  - unfold length. rewrite lt_sqrt_spec, Q2R_inject_Z
      by apply inject_norm2_nonneg. reflexivity.
  - unfold point_segment_distance.
    apply lt_sqrt_spec, point_segment_distance2_nonneg.
  - destruct (Rlt_dec _ _); split; intro H; congruence || contradiction.
Qed.

Lemma find_first {A : Type} (f : A -> bool) (l : list A) (x : A) :
  find f l = Some x <->
  exists pre post, l = pre ++ x :: post /\
                   Forall (fun y => f y = false) pre /\ f x = true.
Proof.
  split.
  - induction l as [|y l IH]; simpl; [discriminate|].
    destruct (f y) eqn:Ey.
    + intros [= <-]. exists [], l. repeat split; auto.
    + intros H. destruct (IH H) as [pre [post [-> [Hpre Hx]]]].
      exists (y :: pre), post. repeat split; auto.
  - intros [pre [post [-> [Hpre Hx]]]].
    induction Hpre as [|y pre Hy _ IH]; simpl; [rewrite Hx; reflexivity|].
    rewrite Hy. exact IH.
Qed.

Lemma find_none_iff {A : Type} (f : A -> bool) (l : list A) :
  find f l = None <-> Forall (fun y => f y = false) l.
Proof.
  induction l as [|y l IH]; simpl; [split; auto|].
  destruct (f y) eqn:Ey; split; intro H.
  - discriminate.
  - inversion H; congruence.
  - constructor; [exact Ey|apply IH, H].
  - inversion H; apply IH; assumption.
Qed.

Lemma stitch_conflict_find ac ar aa pos r c t vl obs :
  stitch_conflict ac ar aa pos r c t vl obs = find (stitch_test ac ar aa pos r c t vl) obs.
Proof.
  induction obs as [|o obs IH]; simpl; [reflexivity|].
  unfold stitch_test at 1.
  destruct (net_exempt t o), (layer_skipped vl o); simpl; try exact IH.
  destruct (item_too_close _ _ _ _ _ _); [reflexivity|exact IH].
Qed.

Lemma fence_conflict_find ac ar aa pos r c t obs :
  fence_conflict ac ar aa pos r c t obs = find (fence_test ac ar aa pos r c t) obs.
Proof.
  induction obs as [|o obs IH]; simpl; [reflexivity|].
  unfold fence_test at 1.
  destruct (net_exempt t o); simpl; [exact IH|].
  destruct (ob_item o); try exact IH;
    destruct (item_too_close _ _ _ _ _ _); solve [reflexivity|exact IH].
Qed.

Lemma stitch_test_spec ac ar aa pos r c t vl o :
  stitch_test ac ar aa pos r c t vl o = true <-> stitch_violation ac ar aa pos r c t vl o.
Proof.
  unfold stitch_test, stitch_violation.
  rewrite !andb_true_iff, !negb_true_iff, item_too_close_spec. tauto.
Qed.

Lemma fence_test_spec ac ar aa pos r c t o :
  fence_test ac ar aa pos r c t o = true <-> fence_violation ac ar aa pos r c t o.
Proof.
  unfold fence_test, fence_violation.
  rewrite andb_true_iff, negb_true_iff.
  destruct (ob_item o); cbn -[item_too_close item_distance];
    try (rewrite item_too_close_spec; intuition; fail);
    intuition discriminate.
Qed.

Lemma Forall_false_not {A : Type} (f : A -> bool) (P : A -> Prop) (l : list A) :
  (forall y, f y = true <-> P y) ->
  Forall (fun y => f y = false) l <-> Forall (fun y => ~ P y) l.
Proof.
  intro Hf. split; apply Forall_impl; intros y Hy.
  - rewrite <- Hf. congruence.
  - destruct (f y) eqn:E; [exfalso; apply Hy, Hf, E|reflexivity].
Qed.

Lemma net_exempt_spec (t : option string) (o : obstacle) :
  net_exempt t o = true <-> exists n, t = Some n /\ ob_net o = Some n.
Proof.
  unfold net_exempt. destruct t as [t|], (ob_net o) as [n|]; split;
    try discriminate; try (intros [x [Hx Hy]]; discriminate).
  - intro H. apply String.eqb_eq in H. subst. eauto.
  - intros [x [[= <-] [= ->]]]. apply String.eqb_refl.
Qed.

(** C2 (as amended): the stitching scan reports the first obstacle, in list
    order, that is not net-exempt, not skipped by the layer gate, and at a
    per-kind distance below [via_radius + half size + clearance], and reports
    nothing iff there is none; the fencing scan does the same over tracks
    and arcs without a layer gate.  An obstacle is net-exempt iff the target
    net and the obstacle's net are both present with the same name, so an
    obstacle with no net is never exempt, whatever the target; and no layer
    gate applies when the candidate has no zone layers. *)
Theorem obstacle_clearance_test :
  (forall ac ar aa pos r c t vl obs o,
      stitch_conflict ac ar aa pos r c t vl obs = Some o <->
      exists pre post, obs = pre ++ o :: post /\
        Forall (fun o' => ~ stitch_violation ac ar aa pos r c t vl o') pre /\
        stitch_violation ac ar aa pos r c t vl o) /\
  (forall ac ar aa pos r c t vl obs,
      stitch_conflict ac ar aa pos r c t vl obs = None <->
      Forall (fun o => ~ stitch_violation ac ar aa pos r c t vl o) obs) /\
  (forall ac ar aa pos r c t obs o,
      fence_conflict ac ar aa pos r c t obs = Some o <->
      exists pre post, obs = pre ++ o :: post /\
        Forall (fun o' => ~ fence_violation ac ar aa pos r c t o') pre /\
        fence_violation ac ar aa pos r c t o) /\
  (forall ac ar aa pos r c t obs,
      fence_conflict ac ar aa pos r c t obs = None <->
      Forall (fun o => ~ fence_violation ac ar aa pos r c t o) obs) /\
  (forall t o, net_exempt t o = true <-> exists n, t = Some n /\ ob_net o = Some n) /\
  (forall t o, ob_net o = None -> net_exempt t o = false) /\
  (forall o, layer_skipped [] o = false).
Proof.
  split; [|split; [|split; [|split; [|split; [|split]]]]].
  - intros. rewrite stitch_conflict_find, find_first.
    setoid_rewrite (Forall_false_not _ _ _ (stitch_test_spec ac ar aa pos r c t vl)).
    setoid_rewrite stitch_test_spec. reflexivity.
  - intros. rewrite stitch_conflict_find, find_none_iff.
    apply Forall_false_not, stitch_test_spec.
  - intros. rewrite fence_conflict_find, find_first.
    setoid_rewrite (Forall_false_not _ _ _ (fence_test_spec ac ar aa pos r c t)).
    setoid_rewrite fence_test_spec. reflexivity.
  - intros. rewrite fence_conflict_find, find_none_iff.
    apply Forall_false_not, fence_test_spec.
  - exact net_exempt_spec.
  - intros t o H. unfold net_exempt. rewrite H. destruct t; reflexivity.
  - reflexivity.
Qed.

(** C2, counterexample: in layers-only stitching, a via candidate in a zone
    on layer 3 (F.Cu) at (500, 0) is not reported against [bcu_track],
    although that track is not net-exempt and lies at distance 0, below the
    clearance budget: the layer gate skips it. *)
Lemma obstacle_clearance_layer_gate_counterexample :
  stitch_conflict (fun _ => None) (fun _ => 0%R) (fun _ => None)
    (500, 0) 400 100 None [3] [bcu_track] = None /\
  net_exempt None bcu_track = false /\
  (item_distance (fun _ => None) (fun _ => 0%R) (fun _ => None) (500, 0)%Z
     (ob_item bcu_track)
   < Q2R (400 + obs_clearance (ob_item bcu_track) + 100))%R.
Proof.
  split; [vm_compute; reflexivity|]. split; [reflexivity|].
  apply item_too_close_spec. vm_compute. reflexivity.
Qed.

(** ** Point-arc distance *)

Lemma Int_part_unique (r : R) (k : Z) :
  (IZR k <= r < IZR k + 1)%R -> Int_part r = k.
Proof.
  intros [H1 H2]. unfold Int_part.
  assert (Hup : (k + 1)%Z = up r).
  { apply tech_up; rewrite plus_IZR; simpl; lra. }
  lia.
Qed.

Lemma normalize_angle_radians_in (a : R) (k : Z) :
  (IZR k * (2 * PI) <= a < (IZR k + 1) * (2 * PI))%R ->
  normalize_angle_radians a = (a - 2 * PI * IZR k)%R.
Proof.
  intros [H1 H2]. pose proof PI_RGT_0 as Hpi.
  unfold normalize_angle_radians. rewrite (Int_part_unique _ k); [reflexivity|].
  split.
  - apply (Rmult_le_reg_r (2 * PI)); [lra|].
    unfold Rdiv. rewrite Rmult_assoc, Rinv_l by lra. lra.
  - apply (Rmult_lt_reg_r (2 * PI)); [lra|].
    unfold Rdiv. rewrite Rmult_assoc, Rinv_l by lra. lra.
Qed.

Lemma atan_PI6 : atan (1 / sqrt 3) = (PI / 6)%R.
Proof.
  rewrite <- tan_PI6. apply atan_tan. pose proof PI_RGT_0. split; lra.
Qed.

Lemma atan_small (x : R) : (Rabs x <= 1 / 2)%R -> (- (PI / 6) < atan x < PI / 6)%R.
Proof.
  intros Hx.
  assert (H3 : (0 < sqrt 3 < 2)%R).
  { split; [apply sqrt_lt_R0; lra|].
    rewrite <- (sqrt_square 2) by lra. apply sqrt_lt_1_alt. lra. }
  assert (Hh : (1 / 2 < 1 / sqrt 3)%R).
  { apply Rmult_lt_reg_r with (2 * sqrt 3)%R; [lra|].
    field_simplify; lra. }
  assert (Hx' : (- (1 / 2) <= x <= 1 / 2)%R).
  { unfold Rabs in Hx. destruct (Rcase_abs x); lra. }
  split.
  - rewrite <- atan_PI6, <- atan_opp. apply atan_increasing. lra.
  - rewrite <- atan_PI6. apply atan_increasing. lra.
Qed.

Lemma atan_large (x : R) : (2 <= x)%R -> (PI / 3 < atan x < PI / 2)%R.
Proof.
  intros Hx.
  pose proof (atan_inv x ltac:(lra)) as E.
  assert (Hs : (- (PI / 6) < atan (/ x) < PI / 6)%R).
  { apply atan_small. rewrite Rabs_pos_eq.
    - apply Rmult_le_reg_r with x; [lra|]. rewrite Rinv_l by lra. lra.
    - left. apply Rinv_0_lt_compat. lra. }
  assert (Hp : (0 < atan (/ x))%R).
  { rewrite <- atan_0. apply atan_increasing. apply Rinv_0_lt_compat. lra. }
  lra.
Qed.

(** A vector pointing roughly along +x has an angle within π/6 of 0. *)
Lemma angle_east (a b : Z) :
  0 < a -> 2 * Z.abs b <= a -> (- (PI / 6) < angle (a, b) < PI / 6)%R.
Proof.
  intros Ha Hb. unfold angle, atan2. simpl.
  destruct (Z.ltb_spec 0 a); [|lia].
  apply atan_small.
  assert (HaR : (0 < IZR a)%R) by (apply IZR_lt; lia).
  unfold Rdiv. rewrite Rabs_mult, Rabs_inv, (Rabs_pos_eq (IZR a)) by lra.
  rewrite <- abs_IZR.
  apply Rmult_le_reg_r with (IZR a); [lra|].
  rewrite Rmult_assoc, Rinv_l by lra.
  apply IZR_le in Hb. rewrite mult_IZR in Hb. lra.
Qed.

(** A vector pointing roughly along -y has an angle within π/6 of -π/2. *)
Lemma angle_south (u v : Z) :
  v < 0 -> 2 * Z.abs u <= - v ->
  (- (2 * PI / 3) < angle (u, v) < - (PI / 3))%R.
Proof.
  intros Hv Hu. pose proof PI_RGT_0 as Hpi. unfold angle, atan2. simpl.
  assert (HvR : (IZR v < 0)%R) by (apply IZR_lt; lia).
  destruct (Z.ltb_spec 0 u).
  - assert (HuR : (0 < IZR u)%R) by (apply IZR_lt; lia).
    assert (E : (IZR v / IZR u = - (- IZR v / IZR u))%R) by (field; lra).
    rewrite E, atan_opp.
    assert (H2 : (2 <= - IZR v / IZR u)%R).
    { apply Rmult_le_reg_r with (IZR u); [lra|].
      unfold Rdiv. rewrite Rmult_assoc, Rinv_l by lra.
      rewrite Z.abs_eq in Hu by lia. apply IZR_le in Hu.
      rewrite mult_IZR, opp_IZR in Hu. lra. }
    pose proof (atan_large _ H2). lra.
  - destruct (Z.ltb_spec u 0).
    + destruct (Z.leb_spec 0 v); [lia|].
      assert (HuR : (IZR u < 0)%R) by (apply IZR_lt; lia).
      assert (H2 : (2 <= IZR v / IZR u)%R).
      { assert (E : (IZR v / IZR u = - IZR v / - IZR u)%R) by (field; lra).
        rewrite E.
        apply Rmult_le_reg_r with (- IZR u)%R; [lra|].
        unfold Rdiv. rewrite Rmult_assoc, Rinv_l by lra.
        rewrite Z.abs_neq in Hu by lia. apply IZR_le in Hu.
        rewrite mult_IZR, !opp_IZR in Hu. lra. }
      pose proof (atan_large _ H2). lra.
    + destruct (Z.ltb_spec 0 v); [lia|].
      destruct (Z.ltb_spec v 0); [|lia]. lra.
Qed.

(** [delta_angle] of [point_arc_distance] for a point about a quarter turn
    clockwise from the start: within π/3 of 3π/2. *)
Lemma delta_angle_clockwise_quarter (ts tp : R) :
  (- (PI / 6) < ts < PI / 6)%R -> (- (2 * PI / 3) < tp < - (PI / 3))%R ->
  let d := normalize_angle_radians
             (normalize_angle_radians tp - normalize_angle_radians ts) in
  (7 * PI / 6 < d < 2 * PI)%R.
Proof.
  intros Hs Hp d. pose proof PI_RGT_0 as Hpi. subst d.
  rewrite (normalize_angle_radians_in tp (-1)) by (simpl; lra).
  destruct (Rle_dec 0 ts) as [H0|H0].
  - rewrite (normalize_angle_radians_in ts 0) by (simpl; lra).
    rewrite normalize_angle_radians_in with (k := 0) by (simpl; lra).
    simpl. lra.
  - rewrite (normalize_angle_radians_in ts (-1)) by (simpl; lra).
    rewrite normalize_angle_radians_in with (k := -1) by (simpl; lra).
    simpl. lra.
Qed.

(** The on-arc value [|dist_to_center - radius|] at a point about 1 mm
    from a centre that is off by at most 1 um, for a radius within 1 um
    of 1 mm. *)
Lemma radial_gap_small (u v : Z) (r : R) :
  Z.abs u <= 1000 -> 999000 <= - v <= 1001000 ->
  (999000 <= r <= 1001000)%R ->
  (Rabs (length (u, v) - r) <= 3000)%R.
Proof.
  intros Hu Hv Hr. unfold length, norm2. simpl.
  assert (HU : (- 1000 <= IZR u <= 1000)%R).
  { split; apply IZR_le; lia. }
  assert (HV : (999000 <= - IZR v <= 1001000)%R).
  { rewrite <- opp_IZR. split; apply IZR_le; lia. }
  rewrite plus_IZR, !mult_IZR.
  assert (Hlo : (999000 <= sqrt (IZR u * IZR u + IZR v * IZR v))%R).
  { rewrite <- (sqrt_square 999000) by lra. apply sqrt_le_1_alt. nra. }
  assert (Hhi : (sqrt (IZR u * IZR u + IZR v * IZR v) <= 1002000)%R).
  { rewrite <- (sqrt_square 1002000) by lra. apply sqrt_le_1_alt. nra. }
  unfold Rabs. destruct (Rcase_abs _); lra.
Qed.

(** C4 (code bug). kipy computes the centre, radius and sweep of [cw_arc];
    whatever it returns within 1 um of the true centre (5 mm, 5 mm), within
    1 um of the true radius 1 mm, and for any sweep up to 7π/6 (the
    unsigned sweep π, or the signed sweep -π), [point_arc_distance] at the
    arc's own mid point, which lies on the arc at distance 1 mm from the
    centre like both end points, classifies it as off-arc: the code measures
    [delta_angle] counter-clockwise from the start, where the mid point is
    about 3π/2 away. It returns the end-point distance √2 mm instead of the
    on-arc value [|dist_to_center - radius|], which is at most 3 um. *)
Theorem point_arc_distance_negative_sweep :
  forall ac ar aa (c : point) (sigma : R),
    ac cw_arc = Some c ->
    Z.abs (px c - 5000000) <= 1000 -> Z.abs (py c - 5000000) <= 1000 ->
    (999000 <= ar cw_arc <= 1001000)%R ->
    aa cw_arc = Some sigma -> (sigma <= 7 * PI / 6)%R ->
    norm2 (vsub (at_start cw_arc) (5000000, 5000000)) = 1000000000000 /\
    norm2 (vsub (at_mid cw_arc) (5000000, 5000000)) = 1000000000000 /\
    norm2 (vsub (at_end cw_arc) (5000000, 5000000)) = 1000000000000 /\
    point_arc_distance ac ar aa (at_mid cw_arc) cw_arc
      = sqrt (IZR 2000000000000) /\
    (Rabs (length (vsub (at_mid cw_arc) c) - ar cw_arc) <= 3000)%R /\
    point_arc_distance ac ar aa (at_mid cw_arc) cw_arc
      <> Rabs (length (vsub (at_mid cw_arc) c) - ar cw_arc).
Proof.
  intros ac ar aa [cx cy] sigma Hc Hx Hy Hr Ha Hsig. simpl in Hx, Hy.
  pose proof PI_RGT_0 as Hpi.
  assert (Hgap : (Rabs (length (vsub (at_mid cw_arc) (cx, cy)) - ar cw_arc) <= 3000)%R).
  { apply (radial_gap_small (5000000 - cx) (4000000 - cy)); [lia | lia | exact Hr]. }
  assert (Hbig : (1000000 < sqrt (IZR 2000000000000))%R).
  { rewrite <- (sqrt_square 1000000) by lra. apply sqrt_lt_1_alt.
    split; [lra|]. rewrite <- mult_IZR. apply IZR_lt. lia. }
  assert (Hd : point_arc_distance ac ar aa (at_mid cw_arc) cw_arc
               = sqrt (IZR 2000000000000)).
  { unfold point_arc_distance. rewrite Hc, Ha. cbv zeta.
    pose proof (angle_east (6000000 - cx) (5000000 - cy) ltac:(lia) ltac:(lia)) as Hs.
    pose proof (angle_south (5000000 - cx) (4000000 - cy) ltac:(lia) ltac:(lia)) as Hp.
    pose proof (delta_angle_clockwise_quarter _ _ Hs Hp) as Hdelta.
    cbv zeta in Hdelta.
    change (vsub (at_start cw_arc) (cx, cy)) with (6000000 - cx, 5000000 - cy).
    change (vsub (at_mid cw_arc) (cx, cy)) with (5000000 - cx, 4000000 - cy).
    destruct (Rle_dec 0 _) as [_|H]; [|exfalso; lra].
    destruct (Rle_dec _ sigma) as [H|_]; [exfalso; lra|].
    unfold length. vm_compute norm2. apply Rmin_left. lra. }
  split; [reflexivity|]. split; [reflexivity|]. split; [reflexivity|].
  split; [exact Hd|]. split; [exact Hgap|].
  rewrite Hd. intros E. rewrite <- E in Hgap. lra.
Qed.

(** The true centre, radius and the sweep [π] of [cw_arc]. *)
Lemma point_arc_distance_negative_sweep_witness :
  point_arc_distance (fun _ => Some (5000000, 5000000)) (fun _ => 1000000%R)
    (fun _ => Some PI) (at_mid cw_arc) cw_arc = sqrt (IZR 2000000000000) /\
  point_arc_distance (fun _ => Some (5000000, 5000000)) (fun _ => 1000000%R)
    (fun _ => Some PI) (at_mid cw_arc) cw_arc
  <> Rabs (length (vsub (at_mid cw_arc) (5000000, 5000000)) - 1000000).
Proof.
  pose proof PI_RGT_0 as Hpi.
  destruct (point_arc_distance_negative_sweep (fun _ => Some (5000000, 5000000))
              (fun _ => 1000000%R) (fun _ => Some PI) (5000000, 5000000) PI eq_refl
              ltac:(cbv [px fst]; lia) ltac:(cbv [py snd]; lia) ltac:(lra) eq_refl
              ltac:(lra))
    as [_ [_ [_ [H4 [_ H6]]]]].
  split; [exact H4 | exact H6].
Defined.

(** ** The grid *)

Lemma half_count_div (w s : Z) : 0 < s -> 0 <= w -> half_count w s = w / (2 * s).
Proof.
  intros Hs Hw. unfold half_count. destruct s as [|p|p]; try lia. simpl.
  unfold py_int, Qdiv, Qinv, inject_Z, Qmult, Qle_bool, Qfloor. simpl.
  rewrite !Z.mul_1_r.
  destruct (0 <=? w) eqn:E; [reflexivity | apply Z.leb_gt in E; lia].
Qed.

Lemma py_int_Z (z : Z) : py_int (inject_Z z) = z.
Proof.
  unfold py_int. destruct (Qle_bool 0 (inject_Z z)); simpl; rewrite Z.div_1_r; lia.
Qed.

Lemma zrange_In (x lo hi : Z) : In x (zrange lo hi) <-> lo <= x < hi.
Proof.
  unfold zrange. rewrite in_map_iff. split.
  - intros [k [<- Hk]]. apply in_seq in Hk. lia.
  - intros H. exists (Z.to_nat (x - lo)). split; [lia|]. apply in_seq. lia.
Qed.

Lemma grid_indices_In (i j hr hc : Z) :
  In (i, j) (grid_indices hr hc) <-> - hr <= i <= hr /\ - hc <= j <= hc.
Proof.
  unfold grid_indices. rewrite in_flat_map. split.
  - intros [i' [Hi Hj]]. apply in_map_iff in Hj. destruct Hj as [j' [E Hj]].
    injection E as <- <-. apply zrange_In in Hi, Hj. lia.
  - intros H. exists i. split; [apply zrange_In; lia|].
    apply in_map_iff. exists j. split; [reflexivity | apply zrange_In; lia].
Qed.

Lemma grid_point_fixed rnd (c : point) (s off mx my i j : Z) (st : nat) :
  grid_point rnd c s off false mx my (i, j) st
  = (Ok (px c + j * s + (if i mod 2 =? 0 then 0 else off), py c + i * s), st).
Proof.
  unfold grid_point, ret. rewrite !py_int_Z. reflexivity.
Qed.

(** The raw grid points of [generate_grid] with jitter off. *)
Lemma grid_points_In rnd (c : point) (s off mx my hr hc x y : Z) (st : nat) :
  In (Ok (x, y)) (map (fun ij => fst (grid_point rnd c s off false mx my ij st))
                    (grid_indices hr hc))
  <-> exists i j, - hr <= i <= hr /\ - hc <= j <= hc /\
        x = px c + j * s + (if i mod 2 =? 0 then 0 else off) /\ y = py c + i * s.
Proof.
  rewrite in_map_iff. split.
  - intros [[i j] [E Hin]]. rewrite grid_point_fixed in E. simpl in E.
    injection E as Ex Ey. apply grid_indices_In in Hin.
    exists i, j. lia.
  - intros (i & j & Hi & Hj & Ex & Ey). exists (i, j).
    rewrite grid_point_fixed. simpl. split; [subst; reflexivity|].
    apply grid_indices_In. lia.
Qed.

(** C5 (amended). With jitter off, the grid of [generate_grid] is centred on
    [box_center bbox]. Each side of the centre has [size / (2 * spacing)]
    columns and rows, so the index set is symmetric. Grid point (i, j) sits
    at [center + (j * spacing + off_i, i * spacing)], where [off_i] is the row
    offset on odd rows (Python's [i % 2 != 0], negative rows included) and 0
    on even rows. No random draw is made. The raw grid is symmetric about
    the centre exactly when the row offset is 0 or there is a single row
    ([half_rows = 0]). *)
Theorem grid_centered_on_bbox :
  forall rnd (b : box) (s off mx my i j : Z) (st : nat),
    0 < s -> 0 <= px (box_size b) -> 0 <= py (box_size b) ->
    let c := box_center b in
    let hc := half_count (px (box_size b)) s in
    let hr := half_count (py (box_size b)) s in
    let pts := map (fun ij => fst (grid_point rnd c s off false mx my ij st))
                 (grid_indices hr hc) in
    hc = px (box_size b) / (2 * s) /\ hr = py (box_size b) / (2 * s) /\
    (In (i, j) (grid_indices hr hc) <-> - hr <= i <= hr /\ - hc <= j <= hc) /\
    grid_point rnd c s off false mx my (i, j) st
      = (Ok (px c + j * s + (if i mod 2 =? 0 then 0 else off), py c + i * s), st) /\
    ((forall x y, In (Ok (x, y)) pts -> In (Ok (2 * px c - x, 2 * py c - y)) pts)
     <-> off = 0 \/ hr = 0).
Proof.
  intros rnd b s off mx my i j st Hs Hw Hh c hc hr pts.
  assert (Hhc : hc = px (box_size b) / (2 * s)) by (apply half_count_div; assumption).
  assert (Hhr : hr = py (box_size b) / (2 * s)) by (apply half_count_div; assumption).
  assert (Hhc0 : 0 <= hc) by (rewrite Hhc; apply Z.div_pos; lia).
  assert (Hhr0 : 0 <= hr) by (rewrite Hhr; apply Z.div_pos; lia).
  split; [exact Hhc|]. split; [exact Hhr|].
  split; [apply grid_indices_In|].
  split; [apply grid_point_fixed|].
  split.
  - intros Hsym.
    destruct (Z.eq_dec hr 0) as [|Hr]; [now right|left].
    assert (Hodd : forall k, k = 1 \/ k = -1 -> (k mod 2 =? 0) = false).
    { intros k [-> | ->]; reflexivity. }
    assert (H1 : In (Ok (px c + hc * s + off, py c + 1 * s)) pts).
    { unfold pts. apply grid_points_In. exists 1, hc.
      rewrite Hodd by auto. lia. }
    assert (H2 : In (Ok (px c + - hc * s + off, py c + 1 * s)) pts).
    { unfold pts. apply grid_points_In. exists 1, (- hc).
      rewrite Hodd by auto. lia. }
    apply Hsym in H1, H2. unfold pts in H1, H2.
    apply grid_points_In in H1, H2.
    destruct H1 as (i1 & j1 & Hi1 & Hj1 & Ex1 & Ey1).
    destruct H2 as (i2 & j2 & Hi2 & Hj2 & Ex2 & Ey2).
    assert (i1 = -1) by nia. assert (i2 = -1) by nia. subst i1 i2.
    rewrite Hodd in Ex1, Ex2 by auto. nia.
  - intros Hz x y Hin. unfold pts in *.
    apply grid_points_In in Hin. destruct Hin as (i' & j' & Hi & Hj & Ex & Ey).
    apply grid_points_In. exists (- i'), (- j').
    split; [lia|]. split; [lia|]. split; [|lia].
    destruct Hz as [-> | Hr0].
    + rewrite Ex. destruct (_ =? 0), (_ =? 0); lia.
    + assert (i' = 0) by lia. subst i'.
      assert (E0 : (0 mod 2 =? 0) = true) by reflexivity.
      rewrite Ex, Z.opp_0, E0. lia.
Qed.

Lemma grid_centered_on_bbox_witness :
  0 < 2 /\ 0 <= 4 /\ 0 <= 4 /\
  (forall x y,
     In (Ok (x, y)) (map (fun ij => fst (grid_point (fun _ => 0%Q) (2, 2) 2 0 false 0 0 ij 0%nat))
                       (grid_indices 1 1)) ->
     In (Ok (2 * 2 - x, 2 * 2 - y))
       (map (fun ij => fst (grid_point (fun _ => 0%Q) (2, 2) 2 0 false 0 0 ij 0%nat))
          (grid_indices 1 1))).
Proof.
  destruct (grid_centered_on_bbox (fun _ => 0%Q) (mkBox (0, 0) (4, 4)) 2 0 0 0 0 0 0%nat)
    as [_ [_ [_ [_ H5]]]]; [cbn; lia .. |].
  split; [lia|]. split; [lia|]. split; [lia|].
  exact (proj2 H5 (or_introl eq_refl)).
Defined.

(** C5 counterexample. Take the bounding box at (0, 0) of size (4, 4),
    spacing 2, row offset 1 and no jitter. The centre is (2, 2) and there is
    one row and one column on each side. The raw grid holds (5, 0) from the
    odd row i = -1, but not its reflection (-1, 4) through the centre: row
    i = 1 is shifted right too. *)
Lemma grid_centered_row_offset_counterexample :
  let b := mkBox (0, 0) (4, 4) in
  let raw := map (fun ij => fst (grid_point (fun _ => 0%Q) (box_center b) 2 1 false 0 0 ij 0%nat))
               (grid_indices (half_count (py (box_size b)) 2) (half_count (px (box_size b)) 2)) in
  box_center b = (2, 2) /\ In (Ok (5, 0)) raw /\ ~ In (Ok (-1, 4)) raw.
Proof.
  vm_compute. split; [reflexivity|]. split.
  - tauto.
  - intros H. repeat (destruct H as [H|H]; [discriminate H|]). exact H.
Qed.

(** ** The differential-pair filter *)

(** C6 (code bug). In differential-pair mode with two selected items, once
    the sizes resolve and the spacing is positive: when the two generated
    point sequences have the same non-zero length, there are midpoints, and
    the first comparison [(item1.position - mid)] raises [AttributeError]
    (a track, an arc or a segment has no [position]); no candidate is
    filtered. When the lengths differ there are no midpoints and every
    candidate of both sequences is passed to the resolver unfiltered. *)
Theorem diff_pair_midpoint_filter :
  forall ac ar aa gen (q : fence_params) (item1 item2 : sel_item)
         (vd : Z * Z) (st : nat),
    resolve_sizing (fp_sizing q) st = (Ok vd, st) ->
    0 < fp_spacing q ->
    fp_is_diff_pair q = true -> fp_selected q = [item1; item2] ->
    let points1 := gen item1 [-1; 1] in
    let points2 := gen item2 [-1; 1] in
    (points1 <> [] -> List.length points1 = List.length points2 ->
     perform_fencing ac ar aa gen q st = (Err EAttributeError, st)) /\
    (List.length points1 <> List.length points2 ->
     perform_fencing ac ar aa gen q st
     = (Ok (fence_resolve ac ar aa (fp_spacing q) (Qhalf (fst vd))
              (inject_Z (fp_clearance q)) (fp_target_net q)
              (map snd (filter (fun io => negb (Z_inb (fst io) [si_id item1; si_id item2]))
                          (fp_items q)))
              (points1 ++ points2)), st)).
Proof.
  intros ac ar aa gen q item1 item2 vd st Hsz Hsp Hdp Hsel points1 points2.
  assert (Hpre : perform_fencing ac ar aa gen q st
             = (cands <- fence_candidates gen q ;;
                ret (fence_resolve ac ar aa (fp_spacing q) (Qhalf (fst vd))
                       (inject_Z (fp_clearance q)) (fp_target_net q)
                       (map snd (filter (fun io => negb (Z_inb (fst io)
                                                 [si_id item1; si_id item2]))
                                   (fp_items q))) cands)) st).
  { unfold perform_fencing, bind at 1. rewrite Hsz.
    unfold bind at 1, check. destruct (Z.ltb_spec 0 (fp_spacing q)); [|lia].
    unfold ret at 1. rewrite Hsel. reflexivity. }
  rewrite Hpre. unfold fence_candidates. rewrite Hdp, Hsel. fold points1 points2.
  split.
  - intros Hne Hl. rewrite (proj2 (Nat.eqb_eq _ _) Hl).
    destruct points1 as [|a l1]; [congruence|].
    destruct points2 as [|b l2]; [discriminate Hl|]. reflexivity.
  - intros Hl. rewrite (proj2 (Nat.eqb_neq _ _) Hl).
    destruct (points1 ++ points2); reflexivity.
Qed.

(** A fence over two selected tracks that each generate one point. *)
Lemma diff_pair_midpoint_filter_witness :
  let q := mkFenceParams (SizeManual 2 1) 10 0 None true
             [mkSelItem 1 true; mkSelItem 2 true] [] in
  let gen := fun (it : sel_item) (_ : list Z) =>
               if Z.eqb (si_id it) 1 then [(0, 0)] else [(0, 10)] in
  resolve_sizing (fp_sizing q) 0%nat = (Ok (2, 1), 0%nat) /\ 0 < fp_spacing q /\
  perform_fencing (fun _ => None) (fun _ => 0%R) (fun _ => None) gen q 0%nat
  = (Err EAttributeError, 0%nat).
Proof.
  intros q gen.
  split; [reflexivity|]. split; [vm_compute; reflexivity|].
  apply (proj1 (diff_pair_midpoint_filter (fun _ => None) (fun _ => 0%R) (fun _ => None)
                  gen q (mkSelItem 1 true) (mkSelItem 2 true) (2, 1) 0%nat
                  eq_refl ltac:(vm_compute; reflexivity) eq_refl eq_refl)).
  - discriminate.
  - reflexivity.
Defined.

(** ** Errors raised before the grid is generated *)

Lemma grid_point_draws rnd c sp ro rv mx my ij (s : nat) :
  exists pt, grid_point rnd c sp ro rv mx my ij s = (Ok pt, (s + if rv then 2 else 0)%nat).
Proof.
  destruct ij as [i j]. unfold grid_point.
  destruct rv; unfold bind, random_uniform, ret; rewrite Nat.add_comm; eexists; reflexivity.
Qed.






(** ** Errors and empty results *)








(** ** Determinism *)

Lemma resolve_sizing_stateless (sz : sizing) (s : nat) :
  resolve_sizing sz s = (fst (resolve_sizing sz 0%nat), s).
Proof.
  destruct sz; simpl; [reflexivity|].
  unfold bind, check, ret, raise.
  destruct (negb (String.eqb _ _)), found, (negb (via_d =? 0) && negb (drill_d =? 0))%bool; reflexivity.
Qed.

Lemma stitch_areas_and_bbox_stateless (p : stitch_params) (s : nat) :
  stitch_areas_and_bbox p s = (fst (stitch_areas_and_bbox p 0%nat), s).
Proof.
  unfold stitch_areas_and_bbox, bind, check, ret, raise.
  destruct (sp_selection_only p), (sp_selected_zones p);
    try destruct (negb _); reflexivity.
Qed.

Lemma grid_loop_fixed anp rnd rnd' c sp off mx my bound areas idx acc (s s' : nat) :
  grid_loop anp rnd c sp off false mx my bound areas idx acc s
  = (fst (grid_loop anp rnd' c sp off false mx my bound areas idx acc s'), s).
Proof.
  revert acc. induction idx as [|[i j] idx IH]; intros acc; simpl; [reflexivity|].
  unfold bind, grid_point, ret, lift, raise.
  destruct (place_in_area _ _ _ _) as [o|]; [apply IH|reflexivity].
Qed.

Lemma stitch_candidates_fixed anp rnd rnd' p (s s' : nat) :
  sp_random_variance p = false ->
  stitch_candidates anp rnd p s = (fst (stitch_candidates anp rnd' p s'), s).
Proof.
  intros Hv. unfold stitch_candidates, bind.
  rewrite (resolve_sizing_stateless _ s), (resolve_sizing_stateless _ s').
  destruct (fst (resolve_sizing _ _)) as [sz|e]; [|reflexivity].
  unfold check, ret, raise.
  destruct (0 <? sp_spacing p); [|reflexivity].
  rewrite (stitch_areas_and_bbox_stateless _ s), (stitch_areas_and_bbox_stateless _ s').
  destruct (fst (stitch_areas_and_bbox p 0%nat)) as [[areas [b|]]|e]; [|reflexivity|reflexivity].
  simpl. unfold generate_grid. rewrite Hv.
  rewrite (grid_loop_fixed anp rnd rnd' _ _ _ _ _ _ _ _ _ s 0%nat),
    (grid_loop_fixed anp rnd' rnd' _ _ _ _ _ _ _ _ _ s' 0%nat).
  destruct (fst (grid_loop anp rnd' _ _ _ _ _ _ _ _ _ _ 0%nat)); reflexivity.
Qed.

(** C9 (amended). With jitter off, a stitching run draws no random number:
    its result does not depend on the random stream or on the generator's
    state, and it leaves that state as it was. Fencing never draws: its
    result does not depend on the state either. *)
Theorem fixed_grid_deterministic :
  forall anp ac ar aa rnd rnd' gen (p : stitch_params) (q : fence_params) (s s' : nat),
    sp_random_variance p = false ->
    perform_stitching anp ac ar aa rnd p s
      = (fst (perform_stitching anp ac ar aa rnd' p s'), s) /\
    perform_fencing ac ar aa gen q s = (fst (perform_fencing ac ar aa gen q s'), s).
Proof.
  intros anp ac ar aa rnd rnd' gen p q s s' Hv. split.
  - unfold perform_stitching, bind.
    rewrite (stitch_candidates_fixed anp rnd rnd' p s s' Hv),
      (stitch_candidates_fixed anp rnd' rnd' p s' 0%nat Hv).
    destruct (fst (stitch_candidates anp rnd' p 0%nat)) as [[r cs]|e]; [|reflexivity].
    unfold check, ret, raise. destruct cs; reflexivity.
  - unfold perform_fencing, bind.
    rewrite (resolve_sizing_stateless _ s), (resolve_sizing_stateless _ s').
    destruct (fst (resolve_sizing _ _)) as [sz|e]; [|reflexivity].
    unfold check, fence_candidates, ret, raise.
    destruct (0 <? fp_spacing q); [|reflexivity].
    destruct (fp_is_diff_pair q); [destruct (fp_selected q) as [|i1 [|i2 [|i3 l]]]|];
      try reflexivity.
    destruct (gen i1 _ ++ gen i2 _); [reflexivity|].
    destruct (if Nat.eqb _ _ then _ else _); reflexivity.
Qed.

(** The selected [square_zone] stitched with jitter off. *)
Lemma fixed_grid_deterministic_witness :
  sp_random_variance (mkStitchParams (SizeManual 2 1) 1000 0 0 0 false 10 10 true false
    [square_zone] [] None [] false) = false /\
  perform_stitching (fun _ => []) (fun _ => None) (fun _ => 0%R) (fun _ => None) jitter_stream
    (mkStitchParams (SizeManual 2 1) 1000 0 0 0 false 10 10 true false
       [square_zone] [] None [] false) 0%nat
  = (fst (perform_stitching (fun _ => []) (fun _ => None) (fun _ => 0%R) (fun _ => None)
            (fun _ => 0%Q)
            (mkStitchParams (SizeManual 2 1) 1000 0 0 0 false 10 10 true false
               [square_zone] [] None [] false) 7%nat), 0%nat).
Proof.
  split; [reflexivity|].
  exact (proj1 (fixed_grid_deterministic (fun _ => []) (fun _ => None) (fun _ => 0%R)
                  (fun _ => None) jitter_stream (fun _ => 0%Q) (fun _ _ => [])
                  (mkStitchParams (SizeManual 2 1) 1000 0 0 0 false 10 10 true false
                     [square_zone] [] None [] false)
                  (mkFenceParams (SizeManual 2 1) 1000 0 None false [] [])
                  0%nat 7%nat eq_refl)).
Defined.

(** C9 counterexample. With jitter on, two successive runs stitching the
    same selected zone with the same parameters share the global generator
    and accept different points. The first run draws 0 and 0.5, giving
    (40, 50); the second draws 0.5 and 0.5, giving (50, 50). *)
Lemma jitter_rerun_counterexample :
  perform_stitching (fun _ => []) (fun _ => None) (fun _ => 0%R) (fun _ => None)
    jitter_stream jitter_params 0%nat = (Ok [(40, 50)], 2%nat) /\
  perform_stitching (fun _ => []) (fun _ => None) (fun _ => 0%R) (fun _ => None)
    jitter_stream jitter_params 2%nat = (Ok [(50, 50)], 4%nat).
Proof. split; vm_compute; reflexivity. Qed.

(** * Further properties of the geometry helpers *)


Lemma Qltb_compat_r (a b b' : Q) : (b == b')%Q -> Qltb a b = Qltb a b'.
Proof.
  intros H. destruct (Qltb a b) eqn:E1, (Qltb a b') eqn:E2; auto.
  - apply Qltb_spec in E1. rewrite H in E1. apply Qltb_spec in E1. congruence.
  - apply Qltb_spec in E2. rewrite <- H in E2. apply Qltb_spec in E2. congruence.
Qed.

(** The real value of the intercept the ray cast compares with. *)
Lemma Q2R_intercept (u d c : Z) : d <> 0 ->
  Q2R (inject_Z u / inject_Z d + inject_Z c) = (IZR u / IZR d + IZR c)%R.
Proof.
  intros Hd. rewrite Q2R_plus, Q2R_div, !Q2R_inject_Z; [reflexivity|].
  intros H. apply Hd. unfold Qeq in H. simpl in H. lia.
Qed.



Lemma crosses_swap (p : point) (s : segment) : crosses p (swap_segment s) = crosses p s.
Proof.
  destruct s as [a b]. unfold crosses, swap_segment; simpl.
  rewrite (Z.eqb_sym (py b) (py a)), (Z.min_comm (py b)), (Z.max_comm (py b)).
  destruct (Z.eqb (py a) (py b)) eqn:E; [reflexivity|]. simpl.
  destruct (Z.min (py a) (py b) <? py p), (py p <=? Z.max (py a) (py b));
    simpl; try reflexivity.
  apply Qltb_compat_r. apply Z.eqb_neq in E.
  apply eqR_Qeq. rewrite !Q2R_intercept by lia.
  rewrite !mult_IZR, !minus_IZR.
  assert (H1 : (IZR (py a) - IZR (py b) <> 0)%R).
  { intro H. apply E. apply eq_IZR. lra. }
  assert (H2 : (IZR (py b) - IZR (py a) <> 0)%R).
  { intro H. apply E. apply eq_IZR. lra. }
  field. split; assumption.
Qed.

Lemma filter_crosses_swap_some (p : point) (segs segs' : list segment) :
  Forall2 (fun s t => t = s \/ t = swap_segment s) segs segs' ->
  List.length (filter (crosses p) segs') = List.length (filter (crosses p) segs).
Proof.
  induction 1 as [|s t segs segs' Hst _ IH]; [reflexivity|].
  assert (E : crosses p t = crosses p s).
  { destruct Hst as [-> | ->]; [reflexivity | apply crosses_swap]. }
  cbn -[crosses]. rewrite E. destruct (crosses p s); simpl; rewrite IH; reflexivity.
Qed.

Lemma filter_crosses_perm (p : point) (segs segs' : list segment) :
  Permutation segs segs' ->
  List.length (filter (crosses p) segs) = List.length (filter (crosses p) segs').
Proof.
  induction 1 as [|s l l' _ IH|s t l|l l' l'' _ IH1 _ IH2]; simpl.
  - reflexivity.
  - destruct (crosses p s); simpl; rewrite IH; reflexivity.
  - destruct (crosses p s), (crosses p t); reflexivity.
  - congruence.
Qed.

Lemma is_point_inside_segments_parity (p : point) (segs : list segment) :
  is_point_inside_segments p segs = Some (Nat.odd (List.length (filter (crosses p) segs))).
Proof.
  unfold is_point_inside_segments. rewrite count_intersections_crosses.
  simpl. rewrite odd_mod2. reflexivity.
Qed.

(** X1. The ray-casting test [is_point_inside_segments] depends only on the
    multiset of segments taken without direction: listing them in any
    order, and exchanging the two end points of any of them (of none, some
    or all, for instance a ring walked backwards), gives the same answer. *)
Theorem ray_cast_segment_order_irrelevant :
  forall (p : point) (segs segs' segs'' : list segment),
    Permutation segs segs' ->
    Forall2 (fun s t => t = s \/ t = swap_segment s) segs' segs'' ->
    is_point_inside_segments p segs'' = is_point_inside_segments p segs.
Proof.
  intros p segs segs' segs'' Hp Hs. rewrite !is_point_inside_segments_parity.
  rewrite (filter_crosses_swap_some p segs' segs'' Hs),
    (filter_crosses_perm p segs segs' Hp). reflexivity.
Qed.

(** A crossing lies in the segment's vertical band, left of its far end. *)
Lemma crosses_bounds (p : point) (a b : point) :
  crosses p (a, b) = true ->
  Z.min (py a) (py b) < py p <= Z.max (py a) (py b) /\ px p < Z.max (px a) (px b).
Proof.
  unfold crosses. intros H.
  apply andb_true_iff in H as [H Hx]. apply andb_true_iff in H as [Hh Hb].
  apply andb_true_iff in Hb as [Hlo Hhi].
  apply Z.ltb_lt in Hlo. apply Z.leb_le in Hhi.
  apply negb_true_iff, Z.eqb_neq in Hh.
  split; [lia|].
  apply Qltb_spec, Qlt_Rlt in Hx. rewrite Q2R_intercept in Hx by lia.
  rewrite Q2R_inject_Z, mult_IZR, !minus_IZR in Hx.
  set (t := ((IZR (py p) - IZR (py a)) / (IZR (py b) - IZR (py a)))%R) in *.
  assert (Hd : (IZR (py b) - IZR (py a) <> 0)%R) by (intro E; apply Hh, eq_IZR; lra).
  assert (Htd : (t * (IZR (py b) - IZR (py a)) = IZR (py p) - IZR (py a))%R)
    by (unfold t; field; exact Hd).
  assert (Ht : (0 <= t <= 1)%R).
  { destruct (Z.lt_ge_cases (py a) (py b)) as [Hab|Hab].
    - rewrite Z.min_l in Hlo by lia. rewrite Z.max_r in Hhi by lia.
      apply IZR_lt in Hlo. apply IZR_le in Hhi. apply IZR_lt in Hab.
      split; nra.
    - rewrite Z.min_r in Hlo by lia. rewrite Z.max_l in Hhi by lia.
      assert (Hab' : py b < py a) by lia.
      apply IZR_lt in Hlo. apply IZR_le in Hhi. apply IZR_lt in Hab'.
      split; nra. }
  assert (Hx' : (IZR (px p) < IZR (px a) + (IZR (px b) - IZR (px a)) * t)%R).
  { replace ((IZR (px b) - IZR (px a)) * t)%R
      with ((IZR (px b) - IZR (px a)) * (IZR (py p) - IZR (py a))
            / (IZR (py b) - IZR (py a)))%R by (unfold t; field; exact Hd).
    lra. }
  apply lt_IZR. destruct (Z.max_spec (px a) (px b)) as [[Hm E]|[Hm E]]; rewrite E;
    apply IZR_le in Hm || apply IZR_lt in Hm; nra.
Qed.

(** X2. When [is_point_inside_segments] answers inside, some segment of the
    list spans the point's y in its half-open band (min y excluded, max y
    included) and has an end point strictly to the right of the point. *)
Theorem ray_cast_inside_within_bounds :
  forall (p : point) (segs : list segment),
    is_point_inside_segments p segs = Some true ->
    exists a b, In (a, b) segs /\
      Z.min (py a) (py b) < py p <= Z.max (py a) (py b) /\
      px p < Z.max (px a) (px b).
Proof.
  intros p segs H. rewrite is_point_inside_segments_parity in H.
  injection H as H.
  destruct (filter (crosses p) segs) as [|[a b] l] eqn:E; [discriminate|].
  assert (Hin : In (a, b) (filter (crosses p) segs)) by (rewrite E; left; reflexivity).
  apply filter_In in Hin as [Hin Hc].
  exists a, b. split; [exact Hin|]. apply crosses_bounds. exact Hc.
Qed.

Lemma consecutive_pairs_fst_snd (l : list point) :
  map fst (consecutive_pairs l) = removelast l /\ map snd (consecutive_pairs l) = tl l.
Proof.
  induction l as [|a [|b t] IH]; simpl; [auto|auto|].
  destruct IH as [IH1 IH2]. simpl in IH1, IH2. rewrite IH1, IH2. auto.
Qed.

(** X3. [get_polygon_segments] chains the points of the nodes in order: with
    at least two points, the segment starts are the points (all of them when
    closed, all but the last otherwise) and the segment ends are the points
    shifted by one, followed by the first point when closed; with fewer than
    two points there are no segments. *)
Theorem polygon_segments_chain :
  forall (anp : arc_node -> list point) (poly : polyline),
    let pts := flat_map (node_points anp) (nodes poly) in
    let segs := get_polygon_segments anp poly in
    match pts with
    | first :: _ :: _ =>
        map fst segs = (if closed poly then pts else removelast pts) /\
        map snd segs = tl pts ++ (if closed poly then [first] else [])
    | _ => segs = []
    end.
Proof.
  intros anp poly. cbv zeta. unfold get_polygon_segments.
  destruct (nodes poly) as [|n ns]; [reflexivity|].
  destruct (flat_map (node_points anp) (n :: ns)) as [|first [|second rest]];
    try reflexivity.
  destruct (consecutive_pairs_fst_snd (first :: second :: rest)) as [H1 H2].
  rewrite !map_app. unfold segment, point in *. rewrite H1, H2.
  destruct (closed poly); cbn [map fst snd]; rewrite ?app_nil_r; split; try reflexivity.
  rewrite <- app_removelast_last by discriminate. reflexivity.
Qed.



(** The square with its first two sides swapped in order, and the first
    and third of them reversed. *)
Lemma ray_cast_segment_order_irrelevant_witness :
  Permutation square_segments
    [((4, 0), (4, 4)); ((0, 0), (4, 0)); ((4, 4), (0, 4)); ((0, 4), (0, 0))] /\
  Forall2 (fun s t => t = s \/ t = swap_segment s)
    [((4, 0), (4, 4)); ((0, 0), (4, 0)); ((4, 4), (0, 4)); ((0, 4), (0, 0))]
    [((4, 4), (4, 0)); ((0, 0), (4, 0)); ((0, 4), (4, 4)); ((0, 4), (0, 0))] /\
  is_point_inside_segments (1, 2)
    [((4, 4), (4, 0)); ((0, 0), (4, 0)); ((0, 4), (4, 4)); ((0, 4), (0, 0))]
  = is_point_inside_segments (1, 2) square_segments.
Proof.
  assert (Hp : Permutation square_segments
    [((4, 0), (4, 4)); ((0, 0), (4, 0)); ((4, 4), (0, 4)); ((0, 4), (0, 0))])
    by apply perm_swap.
  assert (Hs : Forall2 (fun s t => t = s \/ t = swap_segment s)
    [((4, 0), (4, 4)); ((0, 0), (4, 0)); ((4, 4), (0, 4)); ((0, 4), (0, 0))]
    [((4, 4), (4, 0)); ((0, 0), (4, 0)); ((0, 4), (4, 4)); ((0, 4), (0, 0))]).
  { constructor; [right; reflexivity|]. constructor; [left; reflexivity|].
    constructor; [right; reflexivity|]. constructor; [left; reflexivity|].
    constructor. }
  split; [exact Hp|]. split; [exact Hs|].
  exact (ray_cast_segment_order_irrelevant (1, 2) _ _ _ Hp Hs).
Defined.

Lemma ray_cast_inside_within_bounds_witness :
  is_point_inside_segments (1, 2) square_segments = Some true /\
  exists a b, In (a, b) square_segments /\
    Z.min (py a) (py b) < py (1, 2) <= Z.max (py a) (py b) /\
    px (1, 2) < Z.max (px a) (px b).
Proof.
  split; [vm_compute; reflexivity|].
  apply ray_cast_inside_within_bounds. vm_compute. reflexivity.
Defined.

(** ** Minima, placement, items and the [via-stitch.py] helpers *)

Section MinFold.

Variable T : Type.
Variable le : T -> T -> Prop.
Variable mn : T -> T -> T.
Hypothesis mn_choice : forall x y, mn x y = x \/ mn x y = y.
Hypothesis mn_le_l : forall x y, le (mn x y) x.
Hypothesis mn_le_r : forall x y, le (mn x y) y.
Hypothesis le_refl : forall x, le x x.
Hypothesis le_trans : forall x y z, le x y -> le y z -> le x z.

Lemma is_min_of_single (x : T) : is_min_of T le (Some x) [x].
Proof.
  split; [split; discriminate|]. intros d E. injection E as <-.
  split; [left; reflexivity|]. constructor; [apply le_refl|constructor].
Qed.

Lemma is_min_of_nil : is_min_of T le None [].
Proof. split; [tauto|]. discriminate. Qed.

Lemma omin_app (a b : option T) (la lb : list T) :
  is_min_of T le a la -> is_min_of T le b lb -> is_min_of T le (omin T mn a b) (la ++ lb).
Proof.
  intros [Ha1 Ha2] [Hb1 Hb2]. destruct a as [x|], b as [y|]; simpl.
  - destruct (Ha2 x eq_refl) as [Hx Fx]. destruct (Hb2 y eq_refl) as [Hy Fy].
    split.
    + split; [discriminate|]. intros E. apply app_eq_nil in E as [-> _]. contradiction.
    + intros d E. injection E as <-. split.
      * destruct (mn_choice x y) as [E|E]; rewrite E; apply in_or_app; auto.
      * apply Forall_app. split.
        -- eapply Forall_impl; [|exact Fx]. intros z Hz. eapply le_trans; [apply mn_le_l|exact Hz].
        -- eapply Forall_impl; [|exact Fy]. intros z Hz. eapply le_trans; [apply mn_le_r|exact Hz].
  - assert (lb = []) by (apply Hb1; reflexivity). subst lb. rewrite app_nil_r.
    split; [exact Ha1|exact Ha2].
  - assert (la = []) by (apply Ha1; reflexivity). subst la. simpl.
    split; [exact Hb1|exact Hb2].
  - assert (la = []) by (apply Ha1; reflexivity). assert (lb = []) by (apply Hb1; reflexivity).
    subst. apply is_min_of_nil.
Qed.

Lemma fold_omin {A : Type} (f : A -> option T) (g : A -> list T) :
  (forall x, is_min_of T le (f x) (g x)) ->
  forall l a la, is_min_of T le a la ->
    is_min_of T le (fold_left (fun acc x => omin T mn acc (f x)) l a) (la ++ flat_map g l).
Proof.
  intros Hf l. induction l as [|x l IH]; intros a la Ha; simpl.
  - rewrite app_nil_r. exact Ha.
  - rewrite app_assoc. apply IH. apply omin_app; [exact Ha|apply Hf].
Qed.

End MinFold.

Lemma Rmin_inf_omin (a b : option R) : Rmin_inf a b = omin R Rmin a b.
Proof. destruct a, b; reflexivity. Qed.

Lemma min_inf_omin (a b : option Q) : min_inf a b = omin Q Qmin a b.
Proof. destruct a, b; reflexivity. Qed.

Lemma Rmin_choice (x y : R) : Rmin x y = x \/ Rmin x y = y.
Proof. unfold Rmin. destruct (Rle_dec x y); auto. Qed.

Lemma Qmin_choice (x y : Q) : Qmin x y = x \/ Qmin x y = y.
Proof. unfold Qmin, GenericMinMax.gmin. destruct (x ?= y)%Q; auto. Qed.


Lemma fold_Rmin {A : Type} (f : A -> option R) (g : A -> list R) :
  (forall x, is_min_of R Rle (f x) (g x)) ->
  forall l a la, is_min_of R Rle a la ->
    is_min_of R Rle (fold_left (fun acc x => Rmin_inf acc (f x)) l a) (la ++ flat_map g l).
Proof.
  intros Hf l a la Ha.
  assert (E : forall a', fold_left (fun acc x => Rmin_inf acc (f x)) l a'
              = fold_left (fun acc x => omin R Rmin acc (f x)) l a').
  { clear Ha. induction l as [|x l IH]; intros a'; simpl; [reflexivity|].
    rewrite Rmin_inf_omin. apply IH. }
  rewrite E. apply fold_omin; auto; first [exact Rmin_choice | exact Rmin_l | exact Rmin_r | exact Rle_trans].
Qed.

Lemma fold_Qmin {A : Type} (f : A -> option Q) (g : A -> list Q) :
  (forall x, is_min_of Q Qle (f x) (g x)) ->
  forall l a la, is_min_of Q Qle a la ->
    is_min_of Q Qle (fold_left (fun acc x => min_inf acc (f x)) l a) (la ++ flat_map g l).
Proof.
  intros Hf l a la Ha.
  assert (E : forall a', fold_left (fun acc x => min_inf acc (f x)) l a'
              = fold_left (fun acc x => omin Q Qmin acc (f x)) l a').
  { clear Ha. induction l as [|x l IH]; intros a'; simpl; [reflexivity|].
    rewrite min_inf_omin. apply IH. }
  rewrite E. apply fold_omin; auto; first [exact Qmin_choice | exact Q.le_min_l | exact Q.le_min_r | exact Qle_trans].
Qed.

Lemma flat_map_single {A B : Type} (h : A -> B) (l : list A) :
  flat_map (fun x => [h x]) l = map h l.
Proof. induction l as [|x l IH]; simpl; [reflexivity|]. rewrite IH. reflexivity. Qed.

Lemma flat_map_map_comm {A B C : Type} (h : B -> C) (g : A -> list B) (l : list A) :
  flat_map (fun x => map h (g x)) l = map h (flat_map g l).
Proof.
  induction l as [|x l IH]; simpl; [reflexivity|]. rewrite IH, map_app. reflexivity.
Qed.

Lemma min_segment_distance_min (p : point) (segs : list segment) :
  is_min_of R Rle (min_segment_distance p segs) (map (seg_dist p) segs).
Proof.
  unfold min_segment_distance. rewrite <- flat_map_single.
  apply (fold_Rmin (fun s => Some (seg_dist p s)) (fun s => [seg_dist p s])
           (fun s => is_min_of_single R Rle Rle_refl _) segs None []).
  apply is_min_of_nil.
Qed.

Lemma min_segments_distance2_min (p : point) (segs : list segment) :
  is_min_of Q Qle (min_segments_distance2 p segs) (map (seg_dist2 p) segs).
Proof.
  unfold min_segments_distance2. rewrite <- flat_map_single.
  apply (fold_Qmin (fun s => Some (seg_dist2 p s)) (fun s => [seg_dist2 p s])
           (fun s => is_min_of_single Q Qle Qle_refl _) segs None []).
  apply is_min_of_nil.
Qed.

Lemma point_polygon_distance_min anp p poly :
  is_min_of R Rle (point_polygon_distance anp p poly) (map (seg_dist p) (boundary_segments anp poly)).
Proof.
  unfold point_polygon_distance, boundary_segments. rewrite map_app, <- flat_map_map_comm.
  apply (fold_Rmin (fun h => min_segment_distance p (get_polygon_segments anp h))
           (fun h => map (seg_dist p) (get_polygon_segments anp h))).
  - intros h. apply min_segment_distance_min.
  - apply min_segment_distance_min.
Qed.

Lemma place_d2_min anp p poly :
  is_min_of Q Qle (min_inf (min_segments_distance2 p (get_polygon_segments anp (outline poly)))
              (fold_left (fun acc h => min_inf acc
                            (min_segments_distance2 p (get_polygon_segments anp h)))
                 (holes poly) None))
    (map (seg_dist2 p) (boundary_segments anp poly)).
Proof.
  unfold boundary_segments. rewrite map_app, <- flat_map_map_comm, min_inf_omin.
  apply omin_app.
  - apply Qmin_choice.
  - apply Q.le_min_l.
  - apply Q.le_min_r.
  - apply Qle_trans.
  - apply min_segments_distance2_min.
  - apply (fold_Qmin (fun h => min_segments_distance2 p (get_polygon_segments anp h))
             (fun h => map (seg_dist2 p) (get_polygon_segments anp h)) 
             (fun h => min_segments_distance2_min p _) (holes poly) None []).
    apply is_min_of_nil.
Qed.

Lemma in_map_seg {A : Type} (f : segment -> A) (segs : list segment) (d : A) :
  In d (map f segs) -> exists s, In s segs /\ d = f s.
Proof. intros H. apply in_map_iff in H as [s [<- Hs]]. exists s. auto. Qed.

(** The squared minimum and the minimum of the lengths agree. *)
Lemma ge_sqrt_inf_min (segs : list segment) p (d2 : option Q) (dR : option R) (b : Q) :
  is_min_of Q Qle d2 (map (seg_dist2 p) segs) -> is_min_of R Rle dR (map (seg_dist p) segs) ->
  ge_sqrt_inf d2 b = true <->
  match dR with None => True | Some d => (Q2R b <= d)%R end.
Proof.
  intros [HQ1 HQ2] [HR1 HR2]. destruct d2 as [d|].
  - destruct dR as [r|].
    2:{ exfalso. assert (E : map (seg_dist p) segs = []) by (apply HR1; reflexivity).
        apply map_eq_nil in E. subst segs. simpl in HQ1. pose proof (proj2 HQ1 eq_refl). discriminate. }
    destruct (HQ2 d eq_refl) as [Hd Fd]. destruct (HR2 r eq_refl) as [Hr Fr].
    apply in_map_seg in Hd as [s0 [Hs0 ->]]. apply in_map_seg in Hr as [s1 [Hs1 ->]].
    assert (Heq : sqrt (Q2R (seg_dist2 p s0)) = seg_dist p s1).
    { apply Rle_antisym.
      - rewrite Forall_forall in Fd. specialize (Fd (seg_dist2 p s1) (in_map _ _ _ Hs1)).
        apply sqrt_le_1_alt. apply Qle_Rle. exact Fd.
      - rewrite Forall_forall in Fr. exact (Fr _ (in_map _ _ _ Hs0)). }
    unfold ge_sqrt_inf. rewrite negb_true_iff.
    assert (Hnn : (0 <= seg_dist2 p s0)%Q) by apply point_segment_distance2_nonneg.
    pose proof (lt_sqrt_spec _ b Hnn) as Hs. rewrite Heq in Hs.
    split; intro H.
    + destruct (Rle_lt_dec (Q2R b) (seg_dist p s1)) as [Hle|Hlt]; [exact Hle|].
      apply Hs in Hlt. congruence.
    + apply not_true_is_false. intro E. apply Hs in E. lra.
  - assert (E : map (seg_dist2 p) segs = []) by (apply HQ1; reflexivity).
    apply map_eq_nil in E. subst segs. simpl in HR1.
    assert (dR = None) by (apply HR1; reflexivity). subst dR. simpl. tauto.
Qed.

(** X5. [stitching_utils.point_polygon_distance] is the minimum of the
    point-segment distances over the outline's and the holes' segments: it is
    [float('inf')] (here [None]) exactly when there are no segments, and
    otherwise it is the distance to one of them and at most the distance to
    each. *)
Theorem point_polygon_distance_is_min :
  forall (anp : arc_node -> list point) (p : point) (poly : polygon_with_holes),
    let segs := get_polygon_segments anp (outline poly)
                ++ flat_map (get_polygon_segments anp) (holes poly) in
    (point_polygon_distance anp p poly = None <-> segs = []) /\
    forall d, point_polygon_distance anp p poly = Some d ->
      (exists s, In s segs /\ d = point_segment_distance p (fst s) (snd s)) /\
      (forall s, In s segs -> (d <= point_segment_distance p (fst s) (snd s))%R).
Proof.
  intros anp p poly segs.
  destruct (point_polygon_distance_min anp p poly) as [H1 H2].
  fold (boundary_segments anp poly) in segs. split.
  - rewrite H1. split; intro E.
    + apply map_eq_nil in E. exact E.
    + unfold segs in E. rewrite E. reflexivity.
  - intros d Hd. destruct (H2 d Hd) as [Hin Hall]. split.
    + apply in_map_seg in Hin. exact Hin.
    + intros s Hs. rewrite Forall_forall in Hall. apply (Hall (seg_dist p s)).
      apply in_map. exact Hs.
Qed.

Lemma inside_no_hole_some anp p hs : inside_no_hole anp p hs <> None.
Proof.
  induction hs as [|h hs IH]; simpl; [discriminate|].
  rewrite is_point_inside_segments_parity.
  destruct (Nat.odd _); [discriminate|exact IH].
Qed.

Lemma is_point_inside_polygon_with_holes_some anp p pwh :
  is_point_inside_polygon_with_holes anp p pwh <> None.
Proof.
  unfold is_point_inside_polygon_with_holes. rewrite is_point_inside_segments_parity.
  destruct (Nat.odd _); [apply inside_no_hole_some|discriminate].
Qed.

(** The distance test of [place_in_area] is [point_polygon_distance >= bound]. *)
Lemma place_distance_test anp pos bound poly :
  ge_sqrt_inf
    (min_inf (min_segments_distance2 pos (get_polygon_segments anp (outline poly)))
       (fold_left (fun acc h => min_inf acc
                     (min_segments_distance2 pos (get_polygon_segments anp h)))
          (holes poly) None)) bound = true <->
  match point_polygon_distance anp pos poly with
  | None => True
  | Some d => (Q2R bound <= d)%R
  end.
Proof.
  apply (ge_sqrt_inf_min (boundary_segments anp poly) pos).
  - apply place_d2_min.
  - apply point_polygon_distance_min.
Qed.

Lemma place_in_area_spec :
  forall (anp : arc_node -> list point) (pos : point) (bound : Q)
         (areas : list stitch_area),
    match place_in_area anp pos bound areas with
    | Some (Some c) =>
        exists pre area post, areas = pre ++ area :: post /\
          c = mkStitchCandidate pos (snd area) /\
          area_accepts anp pos bound area /\
          Forall (fun a => ~ area_accepts anp pos bound a) pre
    | Some None => Forall (fun a => ~ area_accepts anp pos bound a) areas
    | None => False
    end.
Proof.
  intros anp pos bound areas.
  induction areas as [|[poly zl] rest IH]; simpl; [constructor|].
  destruct (is_point_inside_polygon_with_holes anp pos poly) as [[|]|] eqn:Ein.
  - destruct (ge_sqrt_inf _ bound) eqn:G.
    + exists [], (poly, zl), rest.
      split; [reflexivity|]. split; [reflexivity|]. split; [|constructor].
      split; [exact Ein|]. apply place_distance_test. exact G.
    + assert (Hno : ~ area_accepts anp pos bound (poly, zl)).
      { intros [_ Hd]. apply place_distance_test in Hd. simpl in Hd. congruence. }
      destruct (place_in_area anp pos bound rest) as [[c|]|]; [|constructor; auto|exact IH].
      destruct IH as [pre [area [post [E [Hc [Ha Hpre]]]]]].
      exists ((poly, zl) :: pre), area, post. rewrite E.
      split; [reflexivity|]. split; [exact Hc|]. split; [exact Ha|].
      constructor; assumption.
  - assert (Hno : ~ area_accepts anp pos bound (poly, zl)).
    { intros [Hi _]. simpl in Hi. congruence. }
    destruct (place_in_area anp pos bound rest) as [[c|]|]; [|constructor; auto|exact IH].
    destruct IH as [pre [area [post [E [Hc [Ha Hpre]]]]]].
    exists ((poly, zl) :: pre), area, post. rewrite E.
    split; [reflexivity|]. split; [exact Hc|]. split; [exact Ha|].
    constructor; assumption.
  - exfalso. exact (is_point_inside_polygon_with_holes_some anp pos poly Ein).
Qed.

(** X6. [place_in_area] always answers, and answers first fit: a candidate is
    made from the first area, in list order, that contains the point (inside
    its polygon, outside its holes) with the point at least the bound away
    from the area's boundary; there is none only when no area does. *)
Theorem place_in_area_first_fit :
  forall (anp : arc_node -> list point) (pos : point) (bound : Q)
         (areas : list stitch_area),
    place_in_area anp pos bound areas <> None /\
    (forall c, place_in_area anp pos bound areas = Some (Some c) ->
       exists pre area post, areas = pre ++ area :: post /\
         c = mkStitchCandidate pos (snd area) /\
         area_accepts anp pos bound area /\
         Forall (fun a => ~ area_accepts anp pos bound a) pre) /\
    (place_in_area anp pos bound areas = Some None ->
       Forall (fun a => ~ area_accepts anp pos bound a) areas).
Proof.
  intros anp pos bound areas.
  pose proof (place_in_area_spec anp pos bound areas) as H.
  destruct (place_in_area anp pos bound areas) as [[c|]|].
  - split; [discriminate|]. split; [|discriminate].
    intros c' E. injection E as <-. exact H.
  - split; [discriminate|]. split; [discriminate|]. intros _. exact H.
  - contradiction.
Qed.

Lemma grid_loop_spec anp rnd c sp ro rv mx my bound areas idx acc (s : nat) :
  exists cands,
    grid_loop anp rnd c sp ro rv mx my bound areas idx acc s
    = (Ok (acc ++ cands), (s + (if rv then 2 else 0) * List.length idx)%nat) /\
    (List.length cands <= List.length idx)%nat /\
    Forall (fun x => exists pos, place_in_area anp pos bound areas = Some (Some x)) cands.
Proof.
  revert acc s. induction idx as [|ij idx IH]; intros acc s.
  - exists []. rewrite app_nil_r. simpl. unfold ret. split; [f_equal; destruct rv; lia|]. split; [lia|constructor].
  - cbn [grid_loop]. unfold bind at 1.
    destruct (grid_point_draws rnd c sp ro rv mx my ij s) as [pt E]. rewrite E.
    pose proof (place_in_area_spec anp pt bound areas) as Hp.
    unfold bind, lift, ret, raise.
    destruct (place_in_area anp pt bound areas) as [o|] eqn:P; [|contradiction].
    destruct o as [x|].
    + destruct (IH (acc ++ [x]) (s + (if rv then 2 else 0))%nat) as [cs [E2 [Hl Hf]]].
      rewrite E2. exists (x :: cs). rewrite <- app_assoc. simpl.
      split; [f_equal; destruct rv; lia|]. split; [lia|]. constructor; [exists pt; exact P|exact Hf].
    + destruct (IH acc (s + (if rv then 2 else 0))%nat) as [cs [E2 [Hl Hf]]].
      rewrite E2. exists cs. simpl.
      split; [f_equal; destruct rv; lia|]. split; [lia|exact Hf].
Qed.

(** X7. Grid generation never fails: it returns at most one candidate per
    grid index and, with random variance on, draws exactly two random numbers
    per grid index (none with it off). *)
Theorem generate_grid_total_draws :
  forall (anp : arc_node -> list point) (rnd : nat -> Q) (bbox : box)
         (spacing row_offset : Z) (rv : bool) (mx my : Z) (bound : Q)
         (areas : list stitch_area) (s : nat),
    let n := List.length (grid_indices (half_count (py (box_size bbox)) spacing)
                                       (half_count (px (box_size bbox)) spacing)) in
    exists cands,
      generate_grid anp rnd bbox spacing row_offset rv mx my bound areas s
      = (Ok cands, (s + if rv then 2 * n else 0)%nat) /\
      (List.length cands <= n)%nat.
Proof.
  intros. unfold generate_grid.
  destruct (grid_loop_spec anp rnd (box_center bbox) spacing row_offset rv mx my bound areas
              (grid_indices (half_count (py (box_size bbox)) spacing)
                 (half_count (px (box_size bbox)) spacing)) [] s) as [cs [E [Hl _]]].
  exists cs. rewrite E. split; [|exact Hl]. f_equal. unfold n. destruct rv; lia.
Qed.

(** X8. Every candidate the grid phase of [perform_stitching] hands to the
    collision loop lies in one of the stitch areas, carries that area's zone
    layers, and is accepted by it: inside the polygon (outside its holes) and
    at least [via_radius + edge_clearance] from its boundary. *)
Theorem stitch_candidates_in_areas :
  forall (anp : arc_node -> list point) (rnd : nat -> Q) (p : stitch_params)
         (s : nat) (via_radius : Q) (cands : list stitch_candidate) (s' : nat),
    stitch_candidates anp rnd p s = (Ok (via_radius, cands), s') ->
    exists areas bb,
      stitch_areas_and_bbox p s = (Ok (areas, bb), s) /\
      Forall (fun c => exists area, In area areas /\ cand_zone_layers c = snd area /\
                area_accepts anp (cand_pos c)
                  (via_radius + inject_Z (sp_edge_clearance p))%Q area) cands.
Proof.
  intros anp rnd p s vr cands s' H. unfold stitch_candidates, bind in H.
  rewrite (resolve_sizing_stateless _ s) in H.
  destruct (fst (resolve_sizing _ _)) as [sz|e]; [|discriminate].
  unfold check, ret, raise in H.
  destruct (0 <? sp_spacing p); [|discriminate].
  rewrite (stitch_areas_and_bbox_stateless _ s) in H.
  rewrite (stitch_areas_and_bbox_stateless _ s).
  destruct (fst (stitch_areas_and_bbox p 0%nat)) as [[areas [b|]]|e]; [|discriminate|discriminate].
  exists areas, (Some b). split; [reflexivity|]. simpl in H. unfold generate_grid in H.
  destruct (grid_loop_spec anp rnd (box_center b) (sp_spacing p) (sp_row_offset p)
              (sp_random_variance p) (sp_max_x_variance p) (sp_max_y_variance p)
              (Qhalf (fst sz) + inject_Z (sp_edge_clearance p))%Q areas
              (grid_indices (half_count (py (box_size b)) (sp_spacing p))
                 (half_count (px (box_size b)) (sp_spacing p))) [] s)
    as [cs [E [_ Hf]]].
  rewrite E in H. injection H as <- <- _. simpl.
  eapply Forall_impl; [|exact Hf]. intros c [pos Hc].
  pose proof (place_in_area_spec anp pos (Qhalf (fst sz) + inject_Z (sp_edge_clearance p))%Q areas) as Hs.
  rewrite Hc in Hs. destruct Hs as [pre [area [post [Ea [-> [Hacc _]]]]]].
  exists area. simpl. split; [rewrite Ea; apply in_or_app; right; left; reflexivity|].
  split; [reflexivity|exact Hacc].
Qed.


Lemma filter_app_single {A} (f : A -> bool) (l : list A) (x : A) :
  filter f (l ++ [x]) = filter f l ++ (if f x then [x] else []).
Proof. rewrite filter_app. simpl. destruct (f x); reflexivity. Qed.

Lemma returned_count_vias (items : list created_item) :
  returned_count items = vias_created_count items.
Proof. destruct items; reflexivity. Qed.

Lemma stitch_items_step_spec ac ar aa debug lo spacing vr c t obs v items cand :
  let r := stitch_items_step ac ar aa debug lo spacing vr c t obs (v, items) cand in
  fst r = stitch_step ac ar aa debug lo spacing vr c t obs v cand /\
  exists w, fst r = v ++ w /\
    filter is_created_via (snd r) = filter is_created_via items ++ map CreatedVia w /\
    (debug = false -> snd r = items ++ map CreatedVia w).
Proof.
  unfold stitch_items_step, stitch_step. cbv zeta.
  destruct (spacing_conflict spacing (cand_pos cand) v).
  { split; [reflexivity|]. exists []. rewrite !app_nil_r. auto. }
  destruct (stitch_conflict _ _ _ _ _ _ _ _ _) as [o|]; simpl.
  - destruct debug; simpl.
    + split; [reflexivity|]. exists [cand_pos cand]. split; [reflexivity|].
      split; [rewrite filter_app; reflexivity|discriminate].
    + split; [reflexivity|]. exists []. rewrite !app_nil_r. auto.
  - split; [reflexivity|]. exists [cand_pos cand]. split; [reflexivity|].
    split; [rewrite filter_app; reflexivity|reflexivity].
Qed.

Lemma stitch_items_invariant ac ar aa debug lo spacing vr c t obs cands :
  forall v items,
    filter is_created_via items = map CreatedVia v ->
    let r := fold_left (stitch_items_step ac ar aa debug lo spacing vr c t obs) cands (v, items) in
    fst r = fold_left (stitch_step ac ar aa debug lo spacing vr c t obs) cands v /\
    filter is_created_via (snd r) = map CreatedVia (fst r) /\
    (debug = false -> items = map CreatedVia v -> snd r = map CreatedVia (fst r)).
Proof.
  induction cands as [|cand cands IH]; intros v items Hv; cbn [fold_left].
  - split; [reflexivity|]. split; [exact Hv|]. intros _ E. exact E.
  - destruct (stitch_items_step_spec ac ar aa debug lo spacing vr c t obs v items cand)
      as [E1 [w [E2 [E3 E4]]]].
    destruct (stitch_items_step ac ar aa debug lo spacing vr c t obs (v, items) cand)
      as [v' items'] eqn:Es. simpl in E1, E2, E3, E4.
    rewrite <- E1.
    destruct (IH v' items') as [H1 [H2 H3]].
    { rewrite E3, Hv, E2, map_app. reflexivity. }
    split; [exact H1|]. split; [exact H2|].
    intros Hd E. apply H3; [exact Hd|]. rewrite (E4 Hd), E, E2, map_app. reflexivity.
Qed.

(** X9. In [perform_stitching] the created vias are exactly the validated
    points, in order; the returned count is their number; without debug no
    text marker is created. *)
Theorem stitch_items_vias :
  forall ac ar aa (debug lo : bool) (spacing : Z) (vr c : Q) (t : option String.string)
         (obs : list obstacle) (cands : list stitch_candidate),
    let r := stitch_items ac ar aa debug lo spacing vr c t obs cands in
    fst r = stitch_resolve ac ar aa debug lo spacing vr c t obs cands /\
    filter is_created_via (snd r) = map CreatedVia (fst r) /\
    returned_count (snd r) = List.length (fst r) /\
    (debug = false -> snd r = map CreatedVia (fst r)).
Proof.
  intros. unfold r, stitch_items, stitch_resolve.
  destruct (stitch_items_invariant ac ar aa debug lo spacing vr c t obs cands [] [] eq_refl)
    as [H1 [H2 H3]].
  split; [exact H1|]. split; [exact H2|]. split.
  - rewrite returned_count_vias. unfold vias_created_count. rewrite H2, length_map.
    reflexivity.
  - intros Hd. apply H3; [exact Hd|reflexivity].
Qed.

Lemma fence_items_step_spec ac ar aa debug spacing vr c t obs v items pos :
  let r := fence_items_step ac ar aa debug spacing vr c t obs (v, items) pos in
  fst r = fence_step ac ar aa spacing vr c t obs v pos /\
  exists w k, fst r = v ++ w /\
    text_count (snd r) = (text_count items + k)%nat /\
    vias_created_count (snd r) = (vias_created_count items + List.length w + k)%nat /\
    (debug = false -> snd r = items ++ map CreatedVia w).
Proof.
  unfold fence_items_step, fence_step, text_count, vias_created_count.
  destruct (spacing_conflict spacing pos v).
  { split; [reflexivity|]. exists [], 0%nat. rewrite !app_nil_r. simpl. repeat split; lia. }
  destruct (fence_conflict _ _ _ _ _ _ _ _) as [o|]; simpl.
  - destruct debug; simpl.
    + split; [reflexivity|]. exists [], 1%nat. rewrite app_nil_r.
      rewrite !filter_app, !length_app. simpl. repeat split; try lia; discriminate.
    + split; [reflexivity|]. exists [], 0%nat. rewrite !app_nil_r. simpl. repeat split; lia.
  - split; [reflexivity|]. exists [pos], 0%nat.
    rewrite !filter_app, !length_app. simpl. repeat split; lia.
Qed.

Lemma fence_items_invariant ac ar aa debug spacing vr c t obs cands :
  forall v items,
    vias_created_count items = (List.length v + text_count items)%nat ->
    let r := fold_left (fence_items_step ac ar aa debug spacing vr c t obs) cands (v, items) in
    fst r = fold_left (fence_step ac ar aa spacing vr c t obs) cands v /\
    vias_created_count (snd r) = (List.length (fst r) + text_count (snd r))%nat /\
    (debug = false -> items = map CreatedVia v -> snd r = map CreatedVia (fst r)).
Proof.
  induction cands as [|p cands IH]; intros v items Hv; cbn [fold_left].
  - split; [reflexivity|]. split; [exact Hv|]. intros _ E. exact E.
  - destruct (fence_items_step_spec ac ar aa debug spacing vr c t obs v items p)
      as [E1 [w [k [E2 [E3 [E4 E5]]]]]].
    destruct (fence_items_step ac ar aa debug spacing vr c t obs (v, items) p)
      as [v' items'] eqn:Es. simpl in E1, E2, E3, E4, E5.
    rewrite <- E1.
    destruct (IH v' items') as [H1 [H2 H3]].
    { rewrite E4, E3, Hv, E2, length_app. lia. }
    split; [exact H1|]. split; [exact H2|].
    intros Hd E. apply H3; [exact Hd|]. rewrite (E5 Hd), E, E2, map_app. reflexivity.
Qed.

(** X10. In [perform_fencing] the validated points are those of the fence
    resolver; the returned count is the number of validated points plus the
    number of debug markers (each marker comes with a via that is not
    validated); without debug only the validated points get vias. *)
Theorem fence_items_vias :
  forall ac ar aa (debug : bool) (spacing : Z) (vr c : Q) (t : option String.string)
         (obs : list obstacle) (cands : list point),
    let r := fence_items ac ar aa debug spacing vr c t obs cands in
    fst r = fence_resolve ac ar aa spacing vr c t obs cands /\
    returned_count (snd r)
    = (List.length (fst r)
       + List.length (filter (fun i => negb (is_created_via i)) (snd r)))%nat /\
    (debug = false -> snd r = map CreatedVia (fst r)).
Proof.
  intros. unfold r, fence_items, fence_resolve.
  destruct (fence_items_invariant ac ar aa debug spacing vr c t obs cands [] [] eq_refl)
    as [H1 [H2 H3]].
  split; [exact H1|]. split.
  - rewrite returned_count_vias. exact H2.
  - intros Hd. apply H3; [exact Hd|reflexivity].
Qed.

Lemma fold_left_keeps {A B : Type} (step : list B -> A -> list B) (P : B -> Prop)
  (Q : A -> Prop) :
  (forall v a, Q a -> Forall P v -> Forall P (step v a)) ->
  forall l v, Forall Q l -> Forall P v -> Forall P (fold_left step l v).
Proof.
  intros Hs l. induction l as [|a l IH]; intros v Hl Hv; simpl; [exact Hv|].
  inversion Hl; subst. apply IH; [assumption|]. apply Hs; assumption.
Qed.

(** X11. Every point kept by the candidate loops comes from a candidate and
    violates no obstacle's clearance: for stitching without debug, with the
    layers of the candidate's zone; for fencing, over every obstacle. *)
Theorem resolved_points_clear :
  (forall ac ar aa (lo : bool) (spacing : Z) (r c : Q) (t : option String.string)
          (obs : list obstacle) (cands : list stitch_candidate) (x : point),
     In x (stitch_resolve ac ar aa false lo spacing r c t obs cands) ->
     exists cand, In cand cands /\ cand_pos cand = x /\
       Forall (fun o => ~ stitch_violation ac ar aa x r c t
                            (match cand_zone_layers cand with
                             | Some ls => if lo then ls else []
                             | None => []
                             end) o) obs) /\
  (forall ac ar aa (spacing : Z) (r c : Q) (t : option String.string)
          (obs : list obstacle) (cands : list point) (x : point),
     In x (fence_resolve ac ar aa spacing r c t obs cands) ->
     In x cands /\ Forall (fun o => ~ fence_violation ac ar aa x r c t o) obs).
Proof.
  split.
  - intros ac ar aa lo spacing r c t obs cands x Hx.
    set (P := fun x => exists cand, In cand cands /\ cand_pos cand = x /\
       Forall (fun o => ~ stitch_violation ac ar aa x r c t
                            (match cand_zone_layers cand with
                             | Some ls => if lo then ls else []
                             | None => []
                             end) o) obs).
    assert (H : Forall P (stitch_resolve ac ar aa false lo spacing r c t obs cands)).
    { unfold stitch_resolve.
      apply (fold_left_keeps _ P (fun cand => In cand cands)).
      - intros v cand Hc Hv. unfold stitch_step.
        destruct (spacing_conflict _ _ _); [exact Hv|].
        destruct (stitch_conflict _ _ _ _ _ _ _ _ _) as [o|] eqn:E; simpl; [exact Hv|].
        apply Forall_app. split; [exact Hv|]. constructor; [|constructor].
        exists cand. split; [exact Hc|]. split; [reflexivity|].
        rewrite stitch_conflict_find, find_none_iff in E.
        eapply Forall_impl; [|exact E]. intros o Ho Hv'.
        apply stitch_test_spec in Hv'. congruence.
      - apply Forall_forall. auto.
      - constructor. }
    rewrite Forall_forall in H. exact (H x Hx).
  - intros ac ar aa spacing r c t obs cands x Hx.
    set (P := fun x => In x cands /\
                Forall (fun o => ~ fence_violation ac ar aa x r c t o) obs).
    assert (H : Forall P (fence_resolve ac ar aa spacing r c t obs cands)).
    { unfold fence_resolve.
      apply (fold_left_keeps _ P (fun p => In p cands)).
      - intros v p Hp Hv. unfold fence_step.
        destruct (spacing_conflict _ _ _); [exact Hv|].
        destruct (fence_conflict _ _ _ _ _ _ _ _) as [o|] eqn:E; [exact Hv|].
        apply Forall_app. split; [exact Hv|]. constructor; [|constructor].
        split; [exact Hp|].
        rewrite fence_conflict_find, find_none_iff in E.
        eapply Forall_impl; [|exact E]. intros o Ho Hv'.
        apply fence_test_spec in Hv'. congruence.
      - apply Forall_forall. auto.
      - constructor. }
    rewrite Forall_forall in H. exact (H x Hx).
Qed.


Lemma fold_min_spec (l : list Z) (x : Z) :
  fold_left Z.min l x <= x /\ Forall (fun y => fold_left Z.min l x <= y) l /\
  In (fold_left Z.min l x) (x :: l).
Proof.
  revert x. induction l as [|y l IH]; intros x; simpl.
  - split; [lia|]. split; [constructor|left; reflexivity].
  - destruct (IH (Z.min x y)) as [H1 [H2 H3]]. split; [lia|]. split.
    + constructor; [lia|exact H2].
    + destruct H3 as [E|E]; [|right; right; exact E].
      rewrite <- E. destruct (Z.min_spec x y) as [[_ E']|[_ E']]; rewrite E'; simpl; auto.
Qed.

Lemma fold_max_spec (l : list Z) (x : Z) :
  x <= fold_left Z.max l x /\ Forall (fun y => y <= fold_left Z.max l x) l /\
  In (fold_left Z.max l x) (x :: l).
Proof.
  revert x. induction l as [|y l IH]; intros x; simpl.
  - split; [lia|]. split; [constructor|left; reflexivity].
  - destruct (IH (Z.max x y)) as [H1 [H2 H3]]. split; [lia|]. split.
    + constructor; [lia|exact H2].
    + destruct H3 as [E|E]; [|right; right; exact E].
      rewrite <- E. destruct (Z.max_spec x y) as [[_ E']|[_ E']]; rewrite E'; simpl; auto.
Qed.

(** The merge loop keeps the minimum corner and the maximum far corner. *)
Lemma fold_box_merge (rest : list box) (b : box) :
  let m := fold_left box_merge rest b in
  px (box_pos m) = fold_left Z.min (map (fun b => px (box_pos b)) rest) (px (box_pos b)) /\
  py (box_pos m) = fold_left Z.min (map (fun b => py (box_pos b)) rest) (py (box_pos b)) /\
  px (box_pos m) + px (box_size m)
  = fold_left Z.max (map (fun b => px (box_pos b) + px (box_size b)) rest)
      (px (box_pos b) + px (box_size b)) /\
  py (box_pos m) + py (box_size m)
  = fold_left Z.max (map (fun b => py (box_pos b) + py (box_size b)) rest)
      (py (box_pos b) + py (box_size b)).
Proof.
  revert b. induction rest as [|c rest IH]; intros b; simpl; [auto|].
  destruct (IH (box_merge b c)) as [H1 [H2 [H3 H4]]].
  split; [rewrite H1|split; [rewrite H2|split; [rewrite H3|rewrite H4]]];
    f_equal; unfold box_merge, px, py; simpl; lia.
Qed.

Lemma box_eta (b : box) :
  b = mkBox (px (box_pos b), py (box_pos b))
            (px (box_pos b) + px (box_size b) - px (box_pos b),
             py (box_pos b) + py (box_size b) - py (box_pos b)).
Proof.
  destruct b as [[x y] [w h]]. unfold px, py. simpl. f_equal; f_equal; lia.
Qed.

(** With no [BoardPolygon] among the shapes, [stitching_utils] collects
    the boxes the board reports, as [via-stitch.py] does. *)
Lemma shape_bboxes_item (shapes : list edge_shape) :
  Forall (fun s => es_polygon s = None) shapes ->
  flat_map shape_bboxes shapes
  = flat_map (fun s => match es_item_bbox s with Some b => [b] | None => [] end) shapes.
Proof.
  induction 1 as [|s shapes Hs _ IH]; [reflexivity|].
  simpl. rewrite IH. unfold shape_bboxes. rewrite Hs. reflexivity.
Qed.

(** X13. On shapes none of which is a [BoardPolygon], the enclosing box of
    [via-stitch.py]'s [get_enclosing_bbox] (min and max of the corners of
    all shape boxes) equals the one of [stitching_utils.get_enclosing_bbox]
    (merging the boxes one by one). *)
Theorem enclosing_bbox_variants_agree :
  forall shapes : list edge_shape,
    Forall (fun s => es_polygon s = None) shapes ->
    vs_get_enclosing_bbox shapes = enclosing_bbox_shapes shapes.
Proof.
  intros shapes Hno. unfold vs_get_enclosing_bbox, enclosing_bbox_shapes.
  rewrite (shape_bboxes_item shapes Hno).
  destruct shapes as [|sh shapes]; [reflexivity|].
  cbv zeta. unfold merge_boxes.
  destruct (flat_map _ (sh :: shapes)) as [|b rest]; [reflexivity|].
  f_equal. destruct (fold_box_merge rest b) as [H1 [H2 [H3 H4]]].
  rewrite (box_eta (fold_left box_merge rest b)). rewrite H3, H4, H1, H2. reflexivity.
Qed.

(** Two overlapping Edge.Cuts line shapes. *)
Lemma enclosing_bbox_variants_agree_witness :
  let shapes := [mkEdgeShape (Some (mkBox (0, 0) (10, 10))) None;
                 mkEdgeShape (Some (mkBox (5, -5) (10, 10))) None] in
  Forall (fun s => es_polygon s = None) shapes /\
  vs_get_enclosing_bbox shapes = enclosing_bbox_shapes shapes.
Proof.
  intros shapes.
  assert (H : Forall (fun s => es_polygon s = None) shapes)
    by (repeat constructor).
  split; [exact H|]. exact (enclosing_bbox_variants_agree shapes H).
Defined.

(** X12. [get_enclosing_bbox] gives [None] exactly for no boxes; otherwise
    its box contains every box and each of its four edges is an edge of one
    of the boxes, so it is the smallest enclosing box. *)
Theorem merge_boxes_encloses :
  forall bs : list box,
    (merge_boxes bs = None <-> bs = []) /\
    forall bb, merge_boxes bs = Some bb ->
      Forall (fun b => box_within b bb) bs /\
      (exists b, In b bs /\ px (box_pos bb) = px (box_pos b)) /\
      (exists b, In b bs /\ py (box_pos bb) = py (box_pos b)) /\
      (exists b, In b bs /\
         px (box_pos bb) + px (box_size bb) = px (box_pos b) + px (box_size b)) /\
      (exists b, In b bs /\
         py (box_pos bb) + py (box_size bb) = py (box_pos b) + py (box_size b)).
Proof.
  intros bs. destruct bs as [|b rest]; simpl.
  { split; [tauto|discriminate]. }
  split; [split; discriminate|].
  intros bb E. injection E as <-.
  destruct (fold_box_merge rest b) as [H1 [H2 [H3 H4]]].
  set (m := fold_left box_merge rest b) in *.
  destruct (fold_min_spec (map (fun b => px (box_pos b)) rest) (px (box_pos b))) as [A1 [A2 A3]].
  destruct (fold_min_spec (map (fun b => py (box_pos b)) rest) (py (box_pos b))) as [B1 [B2 B3]].
  destruct (fold_max_spec (map (fun b => px (box_pos b) + px (box_size b)) rest)
              (px (box_pos b) + px (box_size b))) as [C1 [C2 C3]].
  destruct (fold_max_spec (map (fun b => py (box_pos b) + py (box_size b)) rest)
              (py (box_pos b) + py (box_size b))) as [D1 [D2 D3]].
  rewrite <- H1 in A1, A2, A3. rewrite <- H2 in B1, B2, B3.
  rewrite <- H3 in C1, C2, C3. rewrite <- H4 in D1, D2, D3.
  rewrite Forall_map in A2, B2, C2, D2.
  split.
  - constructor.
    + unfold box_within. lia.
    + rewrite Forall_forall in A2, B2, C2, D2 |- *. intros c Hc.
      unfold box_within. specialize (A2 c Hc). specialize (B2 c Hc).
      specialize (C2 c Hc). specialize (D2 c Hc). simpl in *. lia.
  - repeat split.
    + destruct A3 as [E|E]; [exists b; split; [left; reflexivity|auto]|].
      apply in_map_iff in E as [c [Ec Hc]]. exists c. split; [right; exact Hc|auto].
    + destruct B3 as [E|E]; [exists b; split; [left; reflexivity|auto]|].
      apply in_map_iff in E as [c [Ec Hc]]. exists c. split; [right; exact Hc|auto].
    + destruct C3 as [E|E]; [exists b; split; [left; reflexivity|auto]|].
      apply in_map_iff in E as [c [Ec Hc]]. exists c. split; [right; exact Hc|auto].
    + destruct D3 as [E|E]; [exists b; split; [left; reflexivity|auto]|].
      apply in_map_iff in E as [c [Ec Hc]]. exists c. split; [right; exact Hc|auto].
Qed.


Lemma consecutive_pairs_nth (l : list point) :
  consecutive_pairs l
  = map (fun i => (nth i l (0, 0), nth (S i) l (0, 0))) (seq 0 (List.length l - 1)).
Proof.
  induction l as [|a t IH]; [reflexivity|].
  destruct t as [|b t']; [reflexivity|].
  change (consecutive_pairs (a :: b :: t')) with ((a, b) :: consecutive_pairs (b :: t')).
  rewrite IH. simpl List.length. replace (S (S (List.length t')) - 1)%nat with (S (List.length t')) by lia.
  replace (S (List.length t') - 1)%nat with (List.length t') by lia.
  cbn [seq map]. f_equal. rewrite <- seq_shift, map_map. reflexivity.
Qed.

Lemma nth_last_point (l : list point) (d : point) :
  l <> [] -> nth (List.length l - 1) l d = last l d.
Proof.
  induction l as [|a t IH]; [congruence|]. intros _.
  destruct t as [|b t']; [reflexivity|].
  simpl List.length in *. replace (S (S (List.length t')) - 1)%nat with (S (List.length t')) by lia.
  change (nth (S (List.length t')) (a :: b :: t') d) with (nth (List.length t') (b :: t') d).
  transitivity (last (b :: t') d); [|reflexivity].
  rewrite <- IH by discriminate. simpl. rewrite Nat.sub_0_r. reflexivity.
Qed.

Lemma last_indep (l : list point) (x y : point) : l <> [] -> last l x = last l y.
Proof.
  induction l as [|a t IH]; [congruence|]. intros _.
  destruct t as [|b t']; [reflexivity|]. apply IH. discriminate.
Qed.

Lemma ring_segments_closed (first second : point) (rest : list point) :
  let l := first :: second :: rest in
  ring_segments l = consecutive_pairs l ++ [(last l first, first)].
Proof.
  intros l. unfold ring_segments. rewrite consecutive_pairs_nth.
  set (n := List.length l).
  assert (Hn : (2 <= n)%nat) by (unfold n, l; simpl; lia).
  assert (Hs : seq 0 n = seq 0 (n - 1) ++ [(n - 1)%nat]).
  { replace n with (S (n - 1)) at 1 by lia. rewrite seq_S. reflexivity. }
  rewrite Hs, map_app.
  f_equal.
  - apply map_ext_in. intros i Hi. apply in_seq in Hi.
    rewrite Nat.mod_small by lia. f_equal. f_equal. lia.
  - cbn [map]. replace (n - 1 + 1)%nat with n by lia. rewrite Nat.Div0.mod_same.
    unfold n. rewrite nth_last_point by (unfold l; discriminate).
    rewrite (last_indep l (0, 0) first) by (unfold l; discriminate). reflexivity.
Qed.

Lemma point_nodes_all (anp : arc_node -> list point) (ns : list poly_node) :
  Forall (fun n => exists p, n = NodePoint p) ns ->
  flat_map (node_points anp) ns = point_nodes ns.
Proof.
  induction 1 as [|n ns [p ->] _ IH]; [reflexivity|]. simpl. rewrite IH. reflexivity.
Qed.

(** X14. [via-stitch.py]'s [get_outline_segments] on a polygon whose closed
    outline has only point nodes gives the same segments as
    [get_polygon_segments] (only the first polygon is used); on a rectangle
    it gives the four sides of its box polygon. *)
Theorem vs_outline_rings :
  (forall (anp : arc_node -> list point) (pwh : polygon_with_holes)
          (rest : list polygon_with_holes),
     closed (outline pwh) = true ->
     Forall (fun n => exists p, n = NodePoint p) (nodes (outline pwh)) ->
     vs_polygon_segments (pwh :: rest) = get_polygon_segments anp (outline pwh)) /\
  (forall (anp : arc_node -> list point) (b : box),
     rect_segments b = get_polygon_segments anp (outline (bbox_polygon b))).
Proof.
  split.
  - intros anp pwh rest Hc Hn. unfold vs_polygon_segments, get_polygon_segments.
    rewrite Hc. destruct (nodes (outline pwh)) as [|n ns] eqn:E; [reflexivity|].
    rewrite (point_nodes_all anp _ Hn).
    destruct (point_nodes (n :: ns)) as [|a [|b t]]; try reflexivity.
    cbv zeta. change (Nat.leb 2 (List.length (a :: b :: t))) with true.
    cbv iota. apply ring_segments_closed.
  - intros anp [[x y] [w h]]. reflexivity.
Qed.

Lemma parity_nil_false (p : point) : is_point_inside_outline p [] = Some false.
Proof. reflexivity. Qed.

(** X15. The candidate filter of [via-stitch.py] always answers, and accepts
    a point exactly when it is inside the outline and at least the bound away
    from every outline segment. *)
Theorem vs_candidate_filter :
  forall (segs : list segment) (pos : point) (bound : Q),
    exists b, vs_candidate_ok segs pos bound = Some b /\
      (b = true <->
       is_point_inside_outline pos segs = Some true /\
       forall s, In s segs -> (Q2R bound <= point_segment_distance pos (fst s) (snd s))%R).
Proof.
  intros segs pos bound. unfold vs_candidate_ok.
  unfold is_point_inside_outline. rewrite is_point_inside_segments_parity.
  destruct (Nat.odd _) eqn:Eo.
  2:{ exists false. split; [reflexivity|]. split; [discriminate|]. intros [H _]. discriminate. }
  destruct segs as [|s0 segs'] eqn:Es; [discriminate|]. rewrite <- Es in *.
  destruct (min_segment_distance_min pos segs) as [H1 H2].
  destruct (min_segment_distance pos segs) as [d|] eqn:Ed.
  2:{ exfalso. assert (E : map (seg_dist pos) segs = []) by (apply H1; reflexivity).
      apply map_eq_nil in E. rewrite Es in E. discriminate. }
  destruct (H2 d eq_refl) as [Hin Hall]. rewrite Forall_forall in Hall.
  eexists. split; [reflexivity|].
  destruct (Rlt_dec d (Q2R bound)) as [Hlt|Hge].
  - split; [discriminate|]. intros [_ Hs]. apply in_map_iff in Hin as [s [Ed' Hs']].
    specialize (Hs s Hs'). unfold seg_dist in Ed'. lra.
  - split; [|reflexivity]. intros _. split; [reflexivity|].
    intros s Hs. specialize (Hall (seg_dist pos s) (in_map _ _ _ Hs)). unfold seg_dist in Hall. lra.
Qed.


Lemma vs_polygon_segments_nil (polys : list polygon_with_holes) :
  vs_polygon_segments polys = [] <->
  match polys with
  | pwh :: _ => (List.length (point_nodes (nodes (outline pwh))) < 2)%nat
  | [] => True
  end.
Proof.
  destruct polys as [|pwh rest]; [simpl; tauto|].
  unfold vs_polygon_segments.
  destruct (nodes (outline pwh)) as [|n ns]; [cbn; split; [lia|reflexivity]|].
  cbv zeta. destruct (Nat.leb 2 (List.length (point_nodes (n :: ns)))) eqn:E.
  - apply Nat.leb_le in E. split; [|lia]. intros H.
    apply (f_equal (@List.length segment)) in H. unfold ring_segments in H.
    rewrite length_map, length_seq in H. change (List.length (@nil segment)) with 0%nat in H. lia.
  - apply Nat.leb_gt in E. split; [intros _; exact E|reflexivity].
Qed.

(** X16. [via-stitch.py]'s [point_polygon_distance] has no segments exactly
    when the first polygon has fewer than two point nodes, and then returns
    [float('inf')]; otherwise it returns 0 for an inside point and the
    minimum segment distance for an outside one. *)
Theorem vs_point_polygon_distance_spec :
  forall (p : point) (polys : list polygon_with_holes),
    let segs := vs_polygon_segments polys in
    (segs = [] <->
     match polys with
     | pwh :: _ => (List.length (point_nodes (nodes (outline pwh))) < 2)%nat
     | [] => True
     end) /\
    (segs = [] -> vs_point_polygon_distance p polys = Some None) /\
    (segs <> [] ->
     exists d, vs_point_polygon_distance p polys = Some (Some d) /\
       (is_point_inside_outline p segs = Some true -> d = 0%R) /\
       (is_point_inside_outline p segs = Some false ->
        (exists s, In s segs /\ d = point_segment_distance p (fst s) (snd s)) /\
        forall s, In s segs -> (d <= point_segment_distance p (fst s) (snd s))%R)).
Proof.
  intros p polys segs. split; [apply vs_polygon_segments_nil|].
  unfold vs_point_polygon_distance. fold segs. split.
  - intros E. rewrite E. reflexivity.
  - intros Hne. destruct segs as [|s0 segs'] eqn:Es; [congruence|]. rewrite <- Es in *.
    unfold is_point_inside_outline. rewrite is_point_inside_segments_parity.
    destruct (Nat.odd _).
    + exists 0%R. split; [reflexivity|]. split; [reflexivity|discriminate].
    + destruct (min_segment_distance_min p segs) as [H1 H2].
      destruct (min_segment_distance p segs) as [d|] eqn:Ed.
      2:{ exfalso. apply Hne. apply map_eq_nil with (f := seg_dist p). apply H1. reflexivity. }
      exists d. split; [reflexivity|]. split; [discriminate|]. intros _.
      destruct (H2 d eq_refl) as [Hin Hall]. split.
      * apply in_map_iff in Hin as [s [E Hs]]. exists s. split; [exact Hs|symmetry; exact E].
      * intros s Hs. rewrite Forall_forall in Hall. apply (Hall (seg_dist p s)). apply in_map. exact Hs.
Qed.


Lemma stitch_candidates_in_areas_witness :
  let cands := [mkStitchCandidate (40, 50) (Some [0])] in
  stitch_candidates (fun _ => []) jitter_stream jitter_params 0%nat
    = (Ok ((2 # 2)%Q, cands), 2%nat) /\
  exists areas bb,
    stitch_areas_and_bbox jitter_params 0%nat = (Ok (areas, bb), 0%nat) /\
    Forall (fun c => exists area, In area areas /\ cand_zone_layers c = snd area /\
              area_accepts (fun _ => []) (cand_pos c)
                ((2 # 2) + inject_Z (sp_edge_clearance jitter_params))%Q area) cands.
Proof.
  intros cands.
  assert (E : stitch_candidates (fun _ => []) jitter_stream jitter_params 0%nat
              = (Ok ((2 # 2)%Q, cands), 2%nat)) by (vm_compute; reflexivity).
  split; [exact E|]. exact (stitch_candidates_in_areas _ _ _ _ _ _ _ E).
Defined.
